(** * beer-testing: a shallow embedding of [main.go]

    The development follows the layout of the Go file: the cart and its
    subtotal, the payment call, the order handler (consumer loop) and the
    subscription with its timer loop (producer loop).

    Conventions.
    - [float64] is the primitive binary64 type; [+] on it is IEEE addition.
    - A Go pointer to an immutable struct ([*Case], [*Beer]) is a [ptr]
      holding the struct or [Nil]; dereferencing [Nil] panics.
    - Carts are mutated through pointers ([AddCase]) and shared between the
      subscription, the channel and the processed-orders log, so a [*Cart]
      is an address into a store of carts.
    - Library calls ([http.Post], [ioutil.ReadAll], [json.Marshal],
      [time.NewTicker], logrus) are modelled by their documented results. *)

From Stdlib Require Import ZArith Lia List String Ascii.
From Stdlib Require Import PrimFloat DecimalString DecimalPos DecimalZ.
From stdpp Require Import base option gmap.
Import ListNotations.
Local Open Scope Z_scope.

(** ** Values *)

Definition float64 := PrimFloat.float.

(** Outcome of a Go call that may panic at run time. *)
Inductive result (A : Type) : Type :=
| Ok (a : A)
| Panic (why : string).
Arguments Ok {A} a.
Arguments Panic {A} why.

Definition nil_deref : string :=
  "invalid memory address or nil pointer dereference".

(** Pointer to a struct that is never written after construction. *)
Inductive ptr (A : Type) : Type :=
| Nil
| Ref (a : A).
Arguments Nil {A}.
Arguments Ref {A} a.

Definition deref {A} (p : ptr A) : result A :=
  match p with
  | Nil => Panic nil_deref
  | Ref a => Ok a
  end.

(** [type Beer struct] *)
Record Beer : Type := mkBeer {
  Brand : string;
  Name : string;
  Ounces : float64
}.

(** [type Case struct] *)
Record Case : Type := mkCase {
  Count : Z;
  CaseBeer : ptr Beer;
  Price : float64
}.

(** [type Cart struct] *)
Record Cart : Type := mkCart {
  Cases : list (ptr Case)
}.

(** ** Cart *)

(** [NewCart]: [&Cart{}], a cart whose slice is nil (empty). *)
Definition NewCart : Cart := mkCart [].

(** [AddCase] on the struct the receiver points to:
    [c.Cases = append(c.Cases, beerCase)]. *)
Definition AddCase (c : Cart) (beerCase : ptr Case) : Cart :=
  mkCart (Cases c ++ [beerCase]).

(** The body of the [range] loop of [Subtotal], one element at a time:
    [subtotal += beerCase.Price]. *)
Fixpoint Subtotal_loop (subtotal : float64) (cases : list (ptr Case))
  : result float64 :=
  match cases with
  | [] => Ok subtotal
  | beerCase :: rest =>
      match deref beerCase with
      | Ok k => Subtotal_loop (subtotal + Price k)%float rest
      | Panic why => Panic why
      end
  end.

(** [Subtotal]: [var subtotal float64] starts at [+0]. *)
Definition Subtotal (c : Cart) : result float64 :=
  Subtotal_loop 0%float (Cases c).

(** The carts of a program live in a store; a [*Cart] is [CNil] or an
    address of the store. *)
Inductive cartptr : Type :=
| CNil
| CAddr (a : nat).

Abbreviation store := (gmap nat Cart).

Definition load (h : store) (p : cartptr) : result Cart :=
  match p with
  | CNil => Panic nil_deref
  | CAddr a =>
      match h !! a with
      | Some c => Ok c
      | None => Panic nil_deref
      end
  end.

(** The method call [p.AddCase(beerCase)] on a [*Cart]. *)
Definition AddCase_at (h : store) (p : cartptr) (beerCase : ptr Case)
  : result store :=
  match p with
  | CNil => Panic nil_deref
  | CAddr a =>
      match h !! a with
      | Some c => Ok (<[a := AddCase c beerCase]> h)
      | None => Panic nil_deref
      end
  end.

(** The method call [p.Subtotal()] on a [*Cart]. *)
Definition Subtotal_at (h : store) (p : cartptr) : result float64 :=
  match load h p with
  | Ok c => Subtotal c
  | Panic why => Panic why
  end.

(** The cart obtained from [NewCart] by a sequence of [AddCase] calls. *)
Definition add_cases (c : Cart) (items : list (ptr Case)) : Cart :=
  fold_left AddCase items c.

(** The specification's sum of the price fields: each case adds its price
    to the sum of the cases inserted before it; the empty sum is [0]. *)
Definition spec_sum_of_prices (ks : list Case) : float64 :=
  fold_right (fun k acc => (acc + Price k)%float) 0%float (rev ks).

(** A sequence of [p.AddCase(x)] calls on one [*Cart]. *)
Fixpoint AddCases_at (h : store) (p : cartptr) (items : list (ptr Case))
  : result store :=
  match items with
  | [] => Ok h
  | x :: rest =>
      match AddCase_at h p x with
      | Ok h' => AddCases_at h' p rest
      | Panic why => Panic why
      end
  end.

(** ** Errors and log records *)

(** A [[]byte]; a nil slice is [None] where the difference matters. *)
Abbreviation bytes := string.

(** The Go error values this program meets. *)
Inductive error : Type :=
| errorString (s : string)
    (* errors.New, and fmt.Errorf without a wrapping verb *)
| urlError (op url why : string)
    (* the error type of every failure of http.Post *)
| UnsupportedValueError (str : string).
    (* encoding/json, for a float that JSON cannot express *)

(** Dynamic values of [interface{}] sent on the message channel. *)
Inductive iface : Type :=
| INil
| ICartPtr (p : cartptr)
| ICasePtr (p : ptr Case)
| IBeerPtr (p : ptr Beer)
| ICartVal (c : Cart)
| IString (s : string)
| IInt (n : Z).

Inductive Level : Type := DebugLevel | InfoLevel | ErrorLevel.

Inductive field : Type :=
| FieldString (s : string)
| FieldError (e : error)
| FieldValue (v : iface).

(** One call of the logger: level, message and fields. *)
Record Entry : Type := mkEntry {
  Lvl : Level;
  Message : string;
  Data : list (string * field)
}.

(** [var logger = logrus.WithFields(logrus.Fields{"component": "beer"})] *)
Definition logger : list (string * field) :=
  [("component", FieldString "beer")]%string.

Definition WithError (fields : list (string * field)) (err : error) :=
  fields ++ [("error", FieldError err)]%string.

Definition WithField (fields : list (string * field)) (key : string)
    (v : iface) :=
  fields ++ [(key, FieldValue v)].

(** ** ProcessPayment *)

(** The [%d] verb of [fmt]. *)
Definition Sprintf_d (n : Z) : string :=
  NilZero.string_of_int (Z.to_int n).

(** [fmt.Errorf("payment server error: %d", code)] *)
Definition payment_server_error (code : Z) : error :=
  errorString ("payment server error: " ++ Sprintf_d code).

(** [json.Marshal] at type [float64]: NaN and the infinities are refused with
    an [UnsupportedValueError]; a finite number is formatted by [strconv]
    (the parameter [format]). *)
Definition json_Marshal (format : float64 -> bytes) (v : float64)
  : option bytes * option error :=
  if is_nan v then (None, Some (UnsupportedValueError "NaN"))
  else if is_infinity v then
    (None, Some (UnsupportedValueError
                   (if (v <? 0)%float then "-Inf" else "+Inf")))
  else (Some (format v), None).

(** [resp.Body]: what [ioutil.ReadAll] obtains from it (the bytes read, and
    the error that stopped the read, if any) and what [Close] returns. *)
Record ReadCloser : Type := mkBody {
  body_data : bytes;
  read_err : option error;
  close_err : option error
}.

Record Response : Type := mkResponse {
  StatusCode : Z;
  Body : ReadCloser
}.

(** [ioutil.ReadAll]: a non-nil slice of the bytes read, and the error. *)
Definition ReadAll (r : ReadCloser) : option bytes * option error :=
  (Some (body_data r), read_err r).

(** Outcome of the round trip of [http.Post]: a response, or the cause of a
    transport failure. *)
Inductive round_trip : Type :=
| Responded (resp : Response)
| Failed (why : string).

(** What is outside the program: the number formatter of [strconv] and the
    network, as a function of the request (URL, content type, body). *)
Record World : Type := mkWorld {
  format_float : float64 -> bytes;
  network : string -> string -> option bytes -> round_trip
}.

(** [http.Post]: every error it returns is a [*url.Error] with [Op = "Post"]. *)
Definition http_Post (w : World) (url contentType : string)
    (body : option bytes) : Response + error :=
  match network w url contentType body with
  | Responded resp => inl resp
  | Failed why => inr (urlError "Post" url why)
  end.

(** [ProcessPayment]. The log is threaded through to show that the function
    never writes to it. *)
Definition ProcessPayment (w : World) (paymentServer : string)
    (total : float64) (log : list Entry)
  : (option bytes * option error) * list Entry :=
  let '(b, _) := json_Marshal (format_float w) total in
  match http_Post w paymentServer "application/json" b with
  | inr err => ((None, Some err), log)
  | inl resp =>
      (* defer resp.Body.Close(): its result is dropped *)
      if (400 <=? StatusCode resp)%Z
      then ((None, Some (payment_server_error (StatusCode resp))), log)
      else (ReadAll (Body resp), log)
  end.

Definition opt_list {A} (o : option A) : list A :=
  match o with
  | Some a => [a]
  | None => []
  end.

(** The error values returned to [ProcessPayment] by the calls of its body
    (or built by it), in program order: [json.Marshal], [http.Post], then
    [fmt.Errorf] or [ioutil.ReadAll], then the deferred [Close]. *)
Definition payment_errors (w : World) (paymentServer : string)
    (total : float64) : list error :=
  let '(b, merr) := json_Marshal (format_float w) total in
  opt_list merr ++
  match http_Post w paymentServer "application/json" b with
  | inr err => [err]
  | inl resp =>
      (if (400 <=? StatusCode resp)%Z
       then [payment_server_error (StatusCode resp)]
       else opt_list (snd (ReadAll (Body resp))))
      ++ opt_list (close_err (Body resp))
  end.

(** An error is logged when some entry carries it in a field. *)
Definition logged (log : list Entry) (e : error) : Prop :=
  exists entry key, In entry log /\ In (key, FieldError e) (Data entry).

(** The body of the request: the first result of [json.Marshal]. *)
Definition request_body (w : World) (total : float64) : option bytes :=
  fst (json_Marshal (format_float w) total).

(** An error is surfaced when it is the error result of the call. *)
Definition surfaced (e : error) (ret : option bytes * option error) : Prop :=
  snd ret = Some e.

(** Payment servers, in the manner of the test servers of the repository:
    one answers 200 with the body OK; one answers 200, announces a body and
    drops the connection after two bytes. *)
Definition ok_server : World :=
  mkWorld (fun _ => "21.5"%string)
          (fun _ _ _ => Responded (mkResponse 200 (mkBody "OK"%string None None))).

Definition truncating_server : World :=
  mkWorld (fun _ => "21.5"%string)
          (fun _ _ _ =>
             Responded (mkResponse 200
               (mkBody "pa"%string (Some (errorString "unexpected EOF")) None))).

(** ** OrderHandler *)

(** [type OrderHandler struct]: the channel it reads is shared with the
    senders and is modelled apart ([chan]). *)
Record OrderHandler : Type := mkHandler {
  ProcessedOrders : list cartptr
}.

(** [PlaceOrder]: appends and returns a nil error. *)
Definition PlaceOrder (o : OrderHandler) (cart : cartptr)
  : OrderHandler * option error :=
  (mkHandler (ProcessedOrders o ++ [cart]), None).

(** The two-result type assertion of [msg] to a pointer to [Cart]. *)
Definition assert_CartPtr (msg : iface) : cartptr * bool :=
  match msg with
  | ICartPtr p => (p, true)
  | _ => (CNil, false)
  end.

(** One pass through the body of the loop of [startOrderHandler] after a
    message was received, with the order placement as a parameter. *)
Definition handle_with
    (place : OrderHandler -> cartptr -> OrderHandler * option error)
    (o : OrderHandler) (log : list Entry) (msg : iface)
  : OrderHandler * list Entry :=
  match assert_CartPtr msg with
  | (cart, true) =>
      match place o cart with
      | (o', Some err) =>
          (o', log ++ [mkEntry ErrorLevel "error placing order"
                               (WithError logger err)])
      | (o', None) =>
          (o', log ++ [mkEntry InfoLevel "successfully placed order" logger])
      end
  | (_, false) =>
      (o, log ++ [mkEntry ErrorLevel
                          "received invalid message on message channel"
                          (WithField logger "msg" msg)])
  end.

Definition handle_message := handle_with PlaceOrder.

(** A channel: the messages sent and not yet received, and whether it was
    closed. *)
Record chan : Type := mkChan {
  queue : list iface;
  closed : bool
}.

(** [msg, ok := <-ch] *)
Inductive recv_outcome : Type :=
| Received (msg : iface) (rest : chan)
| ReceivedClosed
| WouldBlock.

Definition chan_recv (ch : chan) : recv_outcome :=
  match queue ch with
  | msg :: rest => Received msg (mkChan rest (closed ch))
  | [] => if closed ch then ReceivedClosed else WouldBlock
  end.

Inductive loop_status : Type :=
| Returned
| Receiving.

(** [startOrderHandler] run against the messages [pending] that the channel
    delivers, in order, and then finds the channel [closed] or not: the loop
    returns, or stays blocked in the receive. *)
Fixpoint startOrderHandler_with
    (place : OrderHandler -> cartptr -> OrderHandler * option error)
    (o : OrderHandler) (log : list Entry) (pending : list iface)
    (is_closed : bool) : loop_status * OrderHandler * list Entry :=
  match pending with
  | msg :: rest =>
      let '(o', log') := handle_with place o log msg in
      startOrderHandler_with place o' log' rest is_closed
  | [] =>
      if is_closed
      then (Returned, o,
            log ++ [mkEntry DebugLevel "message channel closed" logger])
      else (Receiving, o, log)
  end.

Definition startOrderHandler := startOrderHandler_with PlaceOrder.

(** The carts among the messages, in order. *)
Fixpoint carts_of (msgs : list iface) : list cartptr :=
  match msgs with
  | [] => []
  | ICartPtr p :: rest => p :: carts_of rest
  | _ :: rest => carts_of rest
  end.

(** ** Subscription *)

(** [type Subscription struct]. A [time.Duration] is a count of nanoseconds.
    Every accessor holds [mu] for its whole body, so a call of an accessor is
    one atomic step; the channel is shared and modelled apart ([chan]). *)
Record Subscription : Type := mkSub {
  cart : cartptr;
  interval : Z
}.

Definition GetCart (s : Subscription) : cartptr := cart s.

Definition SetCart (s : Subscription) (c : cartptr) : Subscription :=
  mkSub c (interval s).

Definition GetInterval (s : Subscription) : Z := interval s.

Definition SetInterval (s : Subscription) (t : Z) : Subscription :=
  mkSub (cart s) t.

(** A [*time.Ticker]: its period is fixed when it is made. *)
Record Ticker : Type := mkTicker {
  period : Z
}.

(** [time.NewTicker] panics unless the duration is positive. *)
Definition NewTicker (d : Z) : result Ticker :=
  if (d <=? 0)%Z then Panic "non-positive interval for NewTicker"
  else Ok (mkTicker d).

(** Where the goroutine of [startSubscriptionTimer] stands. *)
Inductive timer_pc : Type :=
| TNotStarted
| TSelect (ticker : Ticker)
    (* waiting in the select *)
| TSend (ticker : Ticker) (msg : iface)
    (* s.GetCart() was evaluated to msg; waiting for the send to complete *)
| TReturned
| TPanicked (why : string).

(** ** The two loops and their environment *)

(** The subscription with its timer loop, the context, the channel that
    connects it to the order handler with its loop, the logger's output and
    the store of carts. [sent] is the history of the sends that the timer
    loop completed. The channel is a queue of any length: on an unbuffered
    channel a send completes together with the receive, which is the run
    where each [ESent] is followed at once by [ERecv]; what holds for every
    run holds for those. *)
Record system : Type := mkSystem {
  sub : Subscription;
  timer : timer_pc;
  cancelled : bool;
  ch : chan;
  sent : list iface;
  handler : OrderHandler;
  consumer : loop_status;
  log : list Entry;
  carts : store
}.

Inductive event : Type :=
| EStart
    (* startSubscriptionTimer is called and runs up to the select *)
| EDone
    (* the select takes the case of ctx.Done() *)
| ETick
    (* the select takes the case of ticker.C and evaluates s.GetCart() *)
| ESent
    (* the pending send on messageChan completes *)
| ERecv
    (* one turn of the loop of startOrderHandler: the receive completes and
       the body runs *)
| ECancel
    (* the context is cancelled *)
| EClose
    (* the owner of the channel closes it *)
| ESetCart (c : cartptr)
| ESetInterval (d : Z)
| EAddCase (p : cartptr) (k : ptr Case).
    (* some goroutine calls p.AddCase(k) *)

Definition set_timer (st : system) (pc : timer_pc) : system :=
  mkSystem (sub st) pc (cancelled st) (ch st) (sent st) (handler st)
           (consumer st) (log st) (carts st).

Definition set_sub (st : system) (s : Subscription) : system :=
  mkSystem s (timer st) (cancelled st) (ch st) (sent st) (handler st)
           (consumer st) (log st) (carts st).

(** The send of [msg] completed: the message is in the channel. *)
Definition enqueue (st : system) (msg : iface) : system :=
  mkSystem (sub st) (timer st) (cancelled st)
           (mkChan (queue (ch st) ++ [msg]) (closed (ch st)))
           (sent st ++ [msg]) (handler st) (consumer st) (log st) (carts st).

(** [startSubscriptionTimer], one step at a time: from the point [pc] of the
    goroutine, given the subscription [s], whether the context is done and
    whether the channel is closed, the event [e] leads to a new point and
    possibly a message handed to the channel; [None] when [e] cannot happen
    at [pc]. A call is possible when no run is active. *)
Definition startSubscriptionTimer (s : Subscription)
    (ctx_done chan_closed : bool) (pc : timer_pc) (e : event)
  : option (timer_pc * option iface) :=
  match e with
  | EStart =>
      match pc with
      | TNotStarted | TReturned =>
          (* ticker := time.NewTicker(s.GetInterval()) *)
          match NewTicker (GetInterval s) with
          | Ok ticker => Some (TSelect ticker, None)
          | Panic why => Some (TPanicked why, None)
          end
      | _ => None
      end
  | EDone =>
      (* case <-ctx.Done(): return *)
      match pc with
      | TSelect _ => if ctx_done then Some (TReturned, None) else None
      | _ => None
      end
  | ETick =>
      (* case <-ticker.C: the operand s.GetCart() of the send is evaluated *)
      match pc with
      | TSelect ticker => Some (TSend ticker (ICartPtr (GetCart s)), None)
      | _ => None
      end
  | ESent =>
      (* s.messageChan <- msg completes, or panics on a closed channel *)
      match pc with
      | TSend ticker msg =>
          if chan_closed
          then Some (TPanicked "send on closed channel", None)
          else Some (TSelect ticker, Some msg)
      | _ => None
      end
  | _ => None
  end.

(** One step of the system; [None] when the event cannot happen in [st]
    (the goroutine concerned is not at that point, or is blocked). *)
Definition step (st : system) (e : event) : option system :=
  match e with
  | EStart | EDone | ETick | ESent =>
      match startSubscriptionTimer (sub st) (cancelled st) (closed (ch st))
                                   (timer st) e with
      | Some (pc, Some msg) => Some (enqueue (set_timer st pc) msg)
      | Some (pc, None) => Some (set_timer st pc)
      | None => None
      end
  | ERecv =>
      match consumer st with
      | Receiving =>
          match chan_recv (ch st) with
          | Received msg rest =>
              let '(o, l) := handle_message (handler st) (log st) msg in
              Some (mkSystem (sub st) (timer st) (cancelled st) rest (sent st)
                             o Receiving l (carts st))
          | ReceivedClosed =>
              Some (mkSystem (sub st) (timer st) (cancelled st) (ch st)
                             (sent st) (handler st) Returned
                             (log st ++ [mkEntry DebugLevel
                                           "message channel closed" logger])
                             (carts st))
          | WouldBlock => None
          end
      | Returned => None
      end
  | ECancel =>
      Some (mkSystem (sub st) (timer st) true (ch st) (sent st) (handler st)
                     (consumer st) (log st) (carts st))
  | EClose =>
      if closed (ch st) then None
      else Some (mkSystem (sub st) (timer st) (cancelled st)
                          (mkChan (queue (ch st)) true) (sent st)
                          (handler st) (consumer st) (log st) (carts st))
  | ESetCart c => Some (set_sub st (SetCart (sub st) c))
  | ESetInterval d => Some (set_sub st (SetInterval (sub st) d))
  | EAddCase p k =>
      match AddCase_at (carts st) p k with
      | Ok h =>
          Some (mkSystem (sub st) (timer st) (cancelled st) (ch st) (sent st)
                         (handler st) (consumer st) (log st) h)
      | Panic _ => None
      end
  end.

Fixpoint run (st : system) (evs : list event) : option system :=
  match evs with
  | [] => Some st
  | e :: rest =>
      match step st e with
      | Some st' => run st' rest
      | None => None
      end
  end.

(** The cart a message refers to, if it refers to one. *)
Definition content (h : store) (msg : iface) : option Cart :=
  match msg with
  | ICartPtr (CAddr a) => h !! a
  | _ => None
  end.

(** The message the timer loop is sending, if it is in a send. *)
Definition in_flight (st : system) : option iface :=
  match timer st with
  | TSend _ msg => Some msg
  | _ => None
  end.

(** The ticker of the running loop. *)
Definition ticker_of (pc : timer_pc) : option Ticker :=
  match pc with
  | TSelect ticker | TSend ticker _ => Some ticker
  | _ => None
  end.

(** The loop that was started with a ticker of period [d] still has it, or
    is over. *)
Definition keeps_period (d : Z) (pc : timer_pc) : Prop :=
  match ticker_of pc with
  | Some ticker => period ticker = d
  | None => pc = TReturned \/ exists why, pc = TPanicked why
  end.

Definition is_EStart (e : event) : bool :=
  match e with EStart => true | _ => false end.

Definition is_EAddCase (e : event) : bool :=
  match e with EAddCase _ _ => true | _ => false end.

(** The events of the timer loop itself once it is started. *)
Definition is_timer_event (e : event) : bool :=
  match e with EDone | ETick | ESent => true | _ => false end.

(** A system before anything ran: empty open channel, empty log, handler
    with no processed order. *)
Definition init_system (s : Subscription) (h : store) : system :=
  mkSystem s TNotStarted false (mkChan [] false) [] (mkHandler [])
           Receiving [] h.

(** ** Fixtures *)

Definition FixtureBeer (brand name : string) (ounces : float64) : ptr Beer :=
  Ref (mkBeer brand name ounces).

Definition FixtureCase (count : Z) (beer : ptr Beer) (price : float64)
  : ptr Case :=
  Ref (mkCase count beer price).

Definition FixtureCart : Cart :=
  mkCart [FixtureCase 4 (FixtureBeer "Duvel" "Tripel Hop" 11%float) 14%float].

(** [time.Second] *)
Definition Second : Z := 1000000000.

(** The set-up of the timer test of the repository: two carts, the first
    held by a subscription with an interval of one second. *)
Definition cart2 : Cart :=
  mkCart [FixtureCase 30 (FixtureBeer "Labatt" "Blue Light" 12%float)
                      24%float].

Definition test_store : store :=
  <[1%nat := cart2]> (<[0%nat := FixtureCart]> ∅).

Definition test_system : system :=
  init_system (mkSub (CAddr 0) Second) test_store.

(** ** Measures of runs and logs *)

Definition is_ETick (e : event) : bool :=
  match e with ETick => true | _ => false end.

Definition is_ESent (e : event) : bool :=
  match e with ESent => true | _ => false end.

(** The number of ticks the select took in a run. *)
Definition ticks (evs : list event) : nat :=
  length (List.filter is_ETick evs).

(** 1 while the timer loop is in a send, 0 otherwise. *)
Definition pending (st : system) : nat :=
  match in_flight st with
  | Some _ => 1%nat
  | None => 0%nat
  end.

(** The cart that the calls of [SetCart] among the events leave in a
    subscription that held [c], and the same for [SetInterval]. *)
Definition written_cart (c : cartptr) (evs : list event) : cartptr :=
  fold_left (fun c0 e => match e with ESetCart c1 => c1 | _ => c0 end) evs c.

Definition written_interval (d : Z) (evs : list event) : Z :=
  fold_left (fun d0 e => match e with ESetInterval d1 => d1 | _ => d0 end)
            evs d.

Definition has_level (l : Level) (entry : Entry) : bool :=
  match l, Lvl entry with
  | DebugLevel, DebugLevel | InfoLevel, InfoLevel
  | ErrorLevel, ErrorLevel => true
  | _, _ => false
  end.

(** The entries of a log at one level. *)
Definition at_level (l : Level) (log : list Entry) : list Entry :=
  List.filter (has_level l) log.

(** The cases a sequence of line items points to, when none of them is
    nil. *)
Fixpoint cases_of (items : list (ptr Case)) : option (list Case) :=
  match items with
  | [] => Some []
  | Nil :: _ => None
  | Ref k :: rest =>
      match cases_of rest with
      | Some ks => Some (k :: ks)
      | None => None
      end
  end.

(** The records that reach the output: [logger] is an entry of the standard
    logger of logrus, whose level is info and is never changed, so the calls
    at the debug level write nothing. *)
Definition written (log : list Entry) : list Entry :=
  List.filter (fun entry => negb (has_level DebugLevel entry)) log.

(** What holds of the subscription wired to the order handler, whatever ran:
    the messages sent are the processed orders followed by the content of
    the channel, all of them carts; a loop that returned left the channel
    closed and empty; the log has no error and one success per order. *)
Definition wired (st : system) : Prop :=
  sent st = map ICartPtr (ProcessedOrders (handler st)) ++ queue (ch st)
  /\ Forall (fun m => snd (assert_CartPtr m) = true) (queue (ch st))
  /\ (forall ticker m,
         timer st = TSend ticker m -> snd (assert_CartPtr m) = true)
  /\ (consumer st = Returned -> closed (ch st) = true /\ queue (ch st) = [])
  /\ at_level ErrorLevel (log st) = []
  /\ length (at_level InfoLevel (log st))
     = length (ProcessedOrders (handler st)).

(** ** Theorems *)

Section CartFacts.

Lemma Cases_add_cases (c : Cart) (items : list (ptr Case)) :
  Cases (add_cases c items) = Cases c ++ items.
Proof.
  revert c; induction items as [|x items IH]; intros c; simpl.
  - now rewrite app_nil_r.
  - rewrite IH; simpl. now rewrite <- app_assoc.
Qed.

Lemma AddCases_at_insert (h : store) (a : nat) (c : Cart)
    (items : list (ptr Case)) :
  AddCases_at (<[a := c]> h) (CAddr a) items
  = Ok (<[a := add_cases c items]> h).
Proof.
  revert c; induction items as [|x items IH]; intros c;
    cbn [AddCases_at AddCase_at add_cases fold_left]; auto.
  rewrite lookup_insert_eq, insert_insert_eq. apply IH.
Qed.

Lemma Subtotal_loop_refs (acc : float64) (ks : list Case) :
  Subtotal_loop acc (map Ref ks)
  = Ok (fold_left (fun s k => (s + Price k)%float) ks acc).
Proof.
  revert acc; induction ks as [|k ks IH]; intros acc; simpl; auto.
Qed.

Lemma Subtotal_refs (ks : list Case) :
  Subtotal (mkCart (map Ref ks)) = Ok (spec_sum_of_prices ks).
Proof.
  unfold Subtotal, spec_sum_of_prices; simpl.
  rewrite Subtotal_loop_refs. f_equal.
  now rewrite <- fold_left_rev_right.
Qed.

Lemma spec_sum_only_prices (ks ks' : list Case) :
  map Price ks = map Price ks' ->
  spec_sum_of_prices ks = spec_sum_of_prices ks'.
Proof.
  unfold spec_sum_of_prices. rewrite !fold_left_rev_right.
  generalize 0%float.
  revert ks'; induction ks as [|k ks IH]; intros [|k' ks'] acc E;
    simpl in *; try discriminate; auto.
  injection E as E1 E2. rewrite E1. now apply IH.
Qed.

Lemma Subtotal_loop_ok_iff (acc : float64) (cases : list (ptr Case)) :
  (exists v, Subtotal_loop acc cases = Ok v)
  <-> Forall (fun p => p <> Nil) cases.
Proof.
  revert acc; induction cases as [|p cases IH]; intros acc; simpl.
  - split; eauto.
  - destruct p as [|k]; simpl.
    + split.
      * intros [v E]; discriminate.
      * intros F. inversion F; congruence.
    + rewrite IH. split.
      * intros F; constructor; [discriminate | exact F].
      * intros F; now inversion F.
Qed.

End CartFacts.

Lemma Subtotal_loop_cases_of (acc : float64) (items : list (ptr Case)) :
  Subtotal_loop acc items
  = match cases_of items with
    | Some ks => Ok (fold_left (fun s k => (s + Price k)%float) ks acc)
    | None => Panic nil_deref
    end.
Proof.
  revert acc; induction items as [|p items IH]; intros acc; simpl; auto.
  destruct p as [|k]; simpl; auto.
  rewrite IH. now destruct (cases_of items).
Qed.

(** C5, the claim as stated fails: [AddCase] accepts a nil case, and the
    cart built by adding a case and then nil has no subtotal, [Subtotal]
    panics on it. *)
Lemma Subtotal_after_AddCase_nil :
  Subtotal (add_cases NewCart [Ref (mkCase 4 Nil 14%float); Nil])
  = Panic nil_deref
  /\ ~ (forall items : list (ptr Case),
           exists s, Subtotal (add_cases NewCart items) = Ok s).
Proof.
  split; [reflexivity|].
  intros T.
  destruct (T [Ref (mkCase 4 Nil 14%float); Nil]) as [s E]. discriminate.
Qed.

(** C5, amended. For every sequence of [AddCase] calls on a new cart:
    if every item added is a case (no nil among them), [Subtotal] returns
    the sum of their price fields, added in insertion order from 0; if some
    item is nil, [Subtotal] panics. The sum is that of the cases before plus
    the price of the last; two sequences of cases with the same prices,
    whatever their counts and beers, have the same subtotal; negative prices
    are summed like any other (the cart priced -14 and 24 has subtotal 10);
    the subtotal of the empty cart is 0. The same holds through a pointer
    into the store. *)
Theorem Subtotal_sum_of_prices :
  (forall items : list (ptr Case),
      Subtotal (add_cases NewCart items)
      = match cases_of items with
        | Some ks => Ok (spec_sum_of_prices ks)
        | None => Panic nil_deref
        end)
  /\ (spec_sum_of_prices [] = 0%float
      /\ forall (ks : list Case) (k : Case),
           spec_sum_of_prices (ks ++ [k])
           = (spec_sum_of_prices ks + Price k)%float)
  /\ (forall ks : list Case,
      Subtotal (add_cases NewCart (map Ref ks)) = Ok (spec_sum_of_prices ks))
  /\ (forall (h : store) (a : nat) (ks : list Case),
      exists h', AddCases_at (<[a := NewCart]> h) (CAddr a) (map Ref ks) = Ok h'
                 /\ Subtotal_at h' (CAddr a) = Ok (spec_sum_of_prices ks))
  /\ (forall (c : Cart) (k : Case) (s : float64),
      Subtotal c = Ok s ->
      Subtotal (AddCase c (Ref k)) = Ok (s + Price k)%float)
  /\ (forall ks ks' : list Case,
      map Price ks = map Price ks' ->
      Subtotal (add_cases NewCart (map Ref ks))
      = Subtotal (add_cases NewCart (map Ref ks')))
  /\ Subtotal (add_cases NewCart
                 [Ref (mkCase 4 (Ref (mkBeer "Duvel" "Tripel Hop" 11%float))
                             (-14)%float);
                  Ref (mkCase 30 (Ref (mkBeer "Labatt" "Blue Light" 12%float))
                              24%float)])
     = Ok 10%float
  /\ Subtotal NewCart = Ok 0%float.
Proof.
  assert (B : forall ks, add_cases NewCart (map Ref ks) = mkCart (map Ref ks)).
  { intros ks. pose proof (Cases_add_cases NewCart (map Ref ks)) as E.
    destruct (add_cases NewCart (map Ref ks)) as [cs]; simpl in E. now subst. }
  split; [|split; [|split; [|split; [|split; [|split; [|split]]]]]].
  - intros items. unfold Subtotal. rewrite Cases_add_cases. simpl.
    rewrite Subtotal_loop_cases_of.
    destruct (cases_of items) as [ks|]; [|reflexivity].
    unfold spec_sum_of_prices. now rewrite fold_left_rev_right.
  - split; [reflexivity|]. intros ks k. unfold spec_sum_of_prices.
    now rewrite rev_app_distr.
  - intros ks. rewrite B. apply Subtotal_refs.
  - intros h a ks. eexists; split.
    + apply AddCases_at_insert.
    + unfold Subtotal_at, load. rewrite lookup_insert_eq, B.
      apply Subtotal_refs.
  - intros [cs] k s. unfold Subtotal; simpl.
    revert s. generalize 0%float.
    induction cs as [|p cs IH]; intros acc s E; simpl in *.
    + now inversion E.
    + destruct p as [|k']; simpl in *; [discriminate | now apply IH].
  - intros ks ks' E. rewrite !B, !Subtotal_refs. f_equal.
    now apply spec_sum_only_prices.
  - vm_compute. reflexivity.
  - reflexivity.
Qed.

(** Witness of C5's step: adding a case priced 24.25 to a cart priced 14.5. *)
Lemma Subtotal_sum_of_prices_witness :
  Subtotal (AddCase (mkCart [Ref (mkCase 4 Nil 14.5%float)])
                    (Ref (mkCase 30 Nil 24.25%float)))
  = Ok (14.5 + 24.25)%float.
Proof.
  pose proof Subtotal_sum_of_prices as (_ & _ & _ & _ & step & _).
  apply (step (mkCart [Ref (mkCase 4 Nil 14.5%float)])
              (mkCase 30 Nil 24.25%float) 14.5%float).
  vm_compute. reflexivity.
Defined.

(** C6, the claim as stated fails: a cart holding a nil line item, which
    [AddCase] accepts, makes [Subtotal] panic. *)
Lemma Subtotal_nil_case_panics :
  Subtotal (AddCase NewCart Nil) = Panic nil_deref
  /\ ~ (forall c : Cart, exists v, Subtotal c = Ok v).
Proof.
  split; [reflexivity|].
  intros T. destruct (T (AddCase NewCart Nil)) as [v E]. discriminate.
Qed.

(** C6, amended. [AddCase] is total: on every cart and every line item, nil
    included, it appends the item, also through a [*Cart] of the store.
    [Subtotal] returns a value exactly on the carts whose line items are all
    non-nil, the empty cart among them; on the others it panics with a nil
    dereference. *)
Theorem AddCase_total_Subtotal_non_nil :
  (forall (c : Cart) (x : ptr Case), Cases (AddCase c x) = Cases c ++ [x])
  /\ (forall (h : store) (a : nat) (c : Cart) (x : ptr Case),
        AddCase_at (<[a := c]> h) (CAddr a) x = Ok (<[a := AddCase c x]> h))
  /\ (forall c : Cart,
        (exists v, Subtotal c = Ok v)
        <-> Forall (fun p => p <> Nil) (Cases c))
  /\ (forall c : Cart,
        (exists v, Subtotal c = Ok v) \/ Subtotal c = Panic nil_deref)
  /\ (forall ks : list Case, exists v, Subtotal (mkCart (map Ref ks)) = Ok v)
  /\ Subtotal NewCart = Ok 0%float.
Proof.
  split; [|split; [|split; [|split; [|split]]]].
  - reflexivity.
  - intros h a c x. unfold AddCase_at.
    now rewrite lookup_insert_eq, insert_insert_eq.
  - intros c. apply Subtotal_loop_ok_iff.
  - intros [cs]. unfold Subtotal; simpl. generalize 0%float.
    induction cs as [|p cs IH]; intros acc; simpl.
    + left; eauto.
    + destruct p as [|k]; simpl; [now right | apply IH].
  - intros ks. eexists. apply Subtotal_refs.
  - reflexivity.
Qed.

(** Witness of C6: the fixture cart has one non-nil case, so its subtotal
    is a value. *)
Lemma AddCase_total_Subtotal_non_nil_witness :
  exists v, Subtotal (mkCart [Ref (mkCase 4 Nil 14%float)]) = Ok v.
Proof.
  pose proof AddCase_total_Subtotal_non_nil as (_ & _ & ok & _).
  apply (ok (mkCart [Ref (mkCase 4 Nil 14%float)])).
  simpl. constructor; [discriminate | constructor].
Defined.

Section PaymentFacts.

Lemma payment_server_error_inj (c c' : Z) :
  payment_server_error c = payment_server_error c' -> c = c'.
Proof.
  unfold payment_server_error, Sprintf_d. intros E.
  cbv [String.append] in E. injection E as E. apply DecimalZ.to_int_inj.
  remember (Z.to_int c) as d. remember (Z.to_int c') as d'.
  assert (N : forall z, Z.to_int z <> Decimal.Pos Decimal.Nil
                        /\ Z.to_int z <> Decimal.Neg Decimal.Nil).
  { intros z. destruct z as [|q|q]; simpl; split; try discriminate;
      intros F; injection F as F;
      now apply DecimalPos.Unsigned.to_uint_nonnil in F. }
  destruct (N c) as [N1 N2], (N c') as [N3 N4]. subst d d'.
  pose proof (NilZero.isi _ N1 N2) as P.
  pose proof (NilZero.isi _ N3 N4) as P'.
  rewrite E in P. rewrite P in P'. now injection P'.
Qed.

End PaymentFacts.

(** C4, the claim as stated fails: the server answers 200 and the read of
    the body is cut short; [ProcessPayment] returns the bytes read together
    with the read error, although the status code is below 400. *)
Lemma ProcessPayment_read_failure :
  network truncating_server "http://pay" "application/json"
          (request_body truncating_server 21.5%float)
  = Responded (mkResponse 200
                 (mkBody "pa" (Some (errorString "unexpected EOF")) None))
  /\ (200 < 400)%Z
  /\ ProcessPayment truncating_server "http://pay" 21.5%float []
     = ((Some "pa"%string, Some (errorString "unexpected EOF")), []).
Proof. repeat split. Qed.

(** C4, amended. A failed request returns a nil body and the transport
    error as it is. A status code of 400 or more returns a nil body and the
    error "payment server error: <code>", which is no transport error and
    from which the code can be read back. A status code below 400 returns
    what reading the body gives: all its bytes and no error when the read
    succeeds, the bytes read and the read error when it fails. The log is
    never written. *)
Theorem ProcessPayment_outcomes :
  (forall (w : World) (url why : string) (total : float64) (log : list Entry),
      network w url "application/json" (request_body w total) = Failed why ->
      ProcessPayment w url total log
      = ((None, Some (urlError "Post" url why)), log))
  /\ (forall (w : World) (url : string) (total : float64) (log : list Entry)
             (resp : Response),
      network w url "application/json" (request_body w total)
      = Responded resp ->
      (400 <= StatusCode resp)%Z ->
      ProcessPayment w url total log
      = ((None, Some (payment_server_error (StatusCode resp))), log))
  /\ (forall (w : World) (url : string) (total : float64) (log : list Entry)
             (resp : Response),
      network w url "application/json" (request_body w total)
      = Responded resp ->
      (StatusCode resp < 400)%Z ->
      ProcessPayment w url total log
      = ((Some (body_data (Body resp)), read_err (Body resp)), log))
  /\ (forall c c' : Z,
      payment_server_error c = payment_server_error c' -> c = c')
  /\ (forall (c : Z) (op url why : string),
      payment_server_error c <> urlError op url why)
  /\ payment_server_error 500 = errorString "payment server error: 500".
Proof.
  split; [|split; [|split; [|split; [|split]]]].
  - intros w url why total log N.
    unfold ProcessPayment, http_Post, request_body in *.
    destruct (json_Marshal (format_float w) total) as [b e]; simpl in N.
    now rewrite N.
  - intros w url total log resp N S.
    unfold ProcessPayment, http_Post, request_body in *.
    destruct (json_Marshal (format_float w) total) as [b e]; simpl in N.
    rewrite N. apply Z.leb_le in S. now rewrite S.
  - intros w url total log resp N S.
    unfold ProcessPayment, http_Post, request_body in *.
    destruct (json_Marshal (format_float w) total) as [b e]; simpl in N.
    rewrite N. apply Z.leb_gt in S. now rewrite S.
  - apply payment_server_error_inj.
  - intros c op url why. discriminate.
  - reflexivity.
Qed.

(** Witness of C4: the three outcomes at concrete servers. *)
Lemma ProcessPayment_outcomes_witness :
  ProcessPayment (mkWorld (fun _ => "21.5"%string)
                          (fun _ _ _ => Failed "connection refused"))
                 "http://pay" 21.5%float []
  = ((None, Some (urlError "Post" "http://pay" "connection refused")), [])
  /\ ProcessPayment
       (mkWorld (fun _ => "21.5"%string)
                (fun _ _ _ =>
                   Responded (mkResponse 500 (mkBody ""%string None None))))
       "http://pay" 21.5%float []
     = ((None, Some (payment_server_error 500)), [])
  /\ ProcessPayment ok_server "http://pay" 21.5%float []
     = ((Some "OK"%string, None), []).
Proof.
  pose proof ProcessPayment_outcomes as (failed & refused & accepted & _).
  split; [|split].
  - apply failed. reflexivity.
  - apply (refused _ _ _ _ (mkResponse 500 (mkBody ""%string None None))).
    + reflexivity.
    + simpl. lia.
  - apply (accepted ok_server _ _ _
                    (mkResponse 200 (mkBody "OK"%string None None))).
    + reflexivity.
    + simpl. lia.
Defined.

(** C9, the claim as stated fails: for a total that is not a number,
    [json.Marshal] returns an error; [ProcessPayment] drops it, posts, and
    returns the answer of the server with a nil error and an unwritten log. *)
Lemma ProcessPayment_drops_marshal_error :
  In (UnsupportedValueError "NaN") (payment_errors ok_server "http://pay" nan)
  /\ ProcessPayment ok_server "http://pay" nan []
     = ((Some "OK"%string, None), [])
  /\ ~ (forall (w : World) (url : string) (total : float64)
               (log : list Entry) (e : error),
           In e (payment_errors w url total) ->
           surfaced e (fst (ProcessPayment w url total log))
           \/ logged (snd (ProcessPayment w url total log)) e).
Proof.
  split; [|split].
  - vm_compute. now left.
  - vm_compute. reflexivity.
  - intros T.
    destruct (T ok_server "http://pay"%string nan []
                (UnsupportedValueError "NaN")) as [S | L].
    + vm_compute. now left.
    + vm_compute in S. discriminate.
    + destruct L as (entry & key & I & _). vm_compute in I. exact I.
Qed.

(** C9, amended. In the consumer loop every error is logged and the loop
    goes on with the next message: an error of the order placement is logged
    with the error in a field, a message that is no cart is logged with the
    message in a field. In [ProcessPayment] every error that arises is
    returned to the caller, except the error of [json.Marshal] and the error
    of closing the body, which are dropped; [ProcessPayment] never logs. *)
Theorem errors_logged_or_surfaced :
  (forall place o log msg rest is_closed,
      startOrderHandler_with place o log (msg :: rest) is_closed
      = startOrderHandler_with place (fst (handle_with place o log msg))
                               (snd (handle_with place o log msg))
                               rest is_closed)
  /\ (forall place o log p err o',
      place o p = (o', Some err) ->
      handle_with place o log (ICartPtr p)
      = (o', log ++ [mkEntry ErrorLevel "error placing order"
                             (WithError logger err)])
      /\ logged (snd (handle_with place o log (ICartPtr p))) err)
  /\ (forall place o log msg,
      snd (assert_CartPtr msg) = false ->
      handle_with place o log msg
      = (o, log ++ [mkEntry ErrorLevel
                            "received invalid message on message channel"
                            (WithField logger "msg" msg)]))
  /\ (forall (w : World) (url : string) (total : float64) (log : list Entry)
             (e : error),
      In e (payment_errors w url total) ->
      surfaced e (fst (ProcessPayment w url total log))
      \/ snd (json_Marshal (format_float w) total) = Some e
      \/ (exists resp,
             network w url "application/json" (request_body w total)
             = Responded resp
             /\ close_err (Body resp) = Some e))
  /\ (forall (w : World) (url : string) (total : float64) (log : list Entry),
      snd (ProcessPayment w url total log) = log).
Proof.
  split; [|split; [|split; [|split]]].
  - intros place o log msg rest c. simpl.
    now destruct (handle_with place o log msg).
  - intros place o log p err o' P. unfold handle_with; simpl. rewrite P.
    split; [reflexivity|]. simpl.
    exists (mkEntry ErrorLevel "error placing order" (WithError logger err)),
           "error"%string.
    split.
    + apply in_or_app. right. now left.
    + simpl. right. now left.
  - intros place o log msg A. unfold handle_with.
    destruct msg; simpl in A; try discriminate; reflexivity.
  - intros w url total log e.
    unfold payment_errors, ProcessPayment, http_Post, request_body, surfaced.
    destruct (json_Marshal (format_float w) total) as [b merr]; simpl.
    intros I. apply in_app_or in I. destruct I as [I | I].
    { right; left. destruct merr; simpl in I; [|contradiction].
      destruct I as [-> | []]. reflexivity. }
    destruct (network w url "application/json" b) as [resp | why] eqn:N.
    + apply in_app_or in I. destruct I as [I | I].
      * left. destruct (400 <=? StatusCode resp)%Z; simpl in *.
        -- destruct I as [<- | []]. reflexivity.
        -- destruct (read_err (Body resp)); simpl in I; [|contradiction].
           destruct I as [<- | []]. reflexivity.
      * right; right. exists resp. split; [reflexivity|].
        destruct (close_err (Body resp)); simpl in I; [|contradiction].
        destruct I as [<- | []]. reflexivity.
    + left. destruct I as [<- | []]. reflexivity.
  - intros w url total log. unfold ProcessPayment, http_Post.
    destruct (json_Marshal (format_float w) total) as [b merr].
    destruct (network w url "application/json" b) as [resp | why]; simpl.
    + now destruct (400 <=? StatusCode resp)%Z.
    + reflexivity.
Qed.

(** Witness of C9: an order placement that refuses every cart has its error
    logged, and the transport error of a failed request is surfaced. *)
Lemma errors_logged_or_surfaced_witness :
  logged (snd (handle_with (fun o _ => (o, Some (errorString "empty cart")))
                           (mkHandler []) [] (ICartPtr CNil)))
         (errorString "empty cart")
  /\ (surfaced (urlError "Post" "http://pay" "connection refused")
        (fst (ProcessPayment
                (mkWorld (fun _ => "21.5"%string)
                         (fun _ _ _ => Failed "connection refused"))
                "http://pay" 21.5%float []))
      \/ snd (json_Marshal (fun _ => "21.5"%string) 21.5%float)
         = Some (urlError "Post" "http://pay" "connection refused")
      \/ exists resp,
           Failed "connection refused" = Responded resp
           /\ close_err (Body resp)
              = Some (urlError "Post" "http://pay" "connection refused")).
Proof.
  pose proof errors_logged_or_surfaced as (_ & placing & _ & paying & _).
  split.
  - apply (placing (fun o _ => (o, Some (errorString "empty cart")))
                   (mkHandler []) [] CNil (errorString "empty cart")
                   (mkHandler [])).
    reflexivity.
  - apply (paying (mkWorld (fun _ => "21.5"%string)
                           (fun _ _ _ => Failed "connection refused"))
                  "http://pay"%string 21.5%float []).
    vm_compute. now left.
Defined.

Section HandlerFacts.

Lemma handle_message_cart (o : OrderHandler) (log : list Entry) (p : cartptr) :
  handle_message o log (ICartPtr p)
  = (mkHandler (ProcessedOrders o ++ [p]),
     log ++ [mkEntry InfoLevel "successfully placed order" logger]).
Proof. reflexivity. Qed.

Lemma handle_message_other (o : OrderHandler) (log : list Entry)
    (msg : iface) :
  snd (assert_CartPtr msg) = false ->
  handle_message o log msg
  = (o, log ++ [mkEntry ErrorLevel
                        "received invalid message on message channel"
                        (WithField logger "msg" msg)]).
Proof.
  intros A. destruct msg; simpl in A; try discriminate; reflexivity.
Qed.

Lemma ProcessedOrders_handle (o : OrderHandler) (log : list Entry)
    (msg : iface) :
  ProcessedOrders (fst (handle_message o log msg))
  = ProcessedOrders o ++ carts_of [msg].
Proof.
  destruct msg; simpl; now rewrite ?app_nil_r.
Qed.

Lemma carts_of_app (l1 l2 : list iface) :
  carts_of (l1 ++ l2) = carts_of l1 ++ carts_of l2.
Proof.
  induction l1 as [|m l1 IH]; simpl; auto.
  destruct m; simpl; now rewrite ?IH.
Qed.

Lemma startOrderHandler_result (o : OrderHandler) (log : list Entry)
    (msgs : list iface) (is_closed : bool) :
  exists log',
    startOrderHandler o log msgs is_closed
    = (if is_closed then Returned else Receiving,
       mkHandler (ProcessedOrders o ++ carts_of msgs), log').
Proof.
  revert o log; induction msgs as [|m msgs IH]; intros o log.
  - simpl. rewrite app_nil_r. destruct o as [po].
    destruct is_closed; eauto.
  - unfold startOrderHandler in *.
    cbn [startOrderHandler_with].
    pose proof (ProcessedOrders_handle o log m) as H.
    unfold handle_message in H.
    destruct (handle_with PlaceOrder o log m) as [o' log'] eqn:E.
    simpl in H.
    destruct (IH o' log') as [log'' R]. rewrite R, H.
    exists log''.
    pose proof (carts_of_app [m] msgs) as C. simpl app in C.
    now rewrite C, app_assoc.
Qed.

End HandlerFacts.

(** C1. Started with an empty processed-orders log (and from any log), the
    consumer loop appends the carts among the delivered messages, in the
    order of delivery; a message that is no cart leaves the log unchanged
    and the messages after it are processed all the same; the loop returns
    when, and only when, the channel is closed. Two carts make the log two
    entries longer, and a bare case after them leaves it so. Step by step in
    the system: a receive on a non-empty channel handles the first message
    and the loop keeps running; on an empty channel the loop returns if the
    channel is closed and waits otherwise. *)
Theorem startOrderHandler_appends_carts :
  (forall (msgs : list iface) (is_closed : bool),
      ProcessedOrders
        (snd (fst (startOrderHandler (mkHandler []) [] msgs is_closed)))
      = carts_of msgs
      /\ (fst (fst (startOrderHandler (mkHandler []) [] msgs is_closed))
          = Returned <-> is_closed = true))
  /\ (forall (o : OrderHandler) (log : list Entry) (msgs : list iface)
             (is_closed : bool),
      ProcessedOrders (snd (fst (startOrderHandler o log msgs is_closed)))
      = ProcessedOrders o ++ carts_of msgs)
  /\ (forall (o : OrderHandler) (log : list Entry) (p : cartptr),
      ProcessedOrders (fst (handle_message o log (ICartPtr p)))
      = ProcessedOrders o ++ [p])
  /\ (forall (o : OrderHandler) (log : list Entry) (msg : iface),
      snd (assert_CartPtr msg) = false ->
      fst (handle_message o log msg) = o)
  /\ (forall (o : OrderHandler) (log : list Entry) (before after : list iface)
             (bad : iface) (is_closed : bool),
      snd (assert_CartPtr bad) = false ->
      ProcessedOrders
        (snd (fst (startOrderHandler o log (before ++ bad :: after)
                                     is_closed)))
      = ProcessedOrders o ++ carts_of before ++ carts_of after)
  /\ (forall (o : OrderHandler) (log : list Entry) (c1 c2 : cartptr)
             (k : ptr Case) (is_closed : bool),
      length (ProcessedOrders
                (snd (fst (startOrderHandler o log [ICartPtr c1; ICartPtr c2]
                                             is_closed))))
      = (length (ProcessedOrders o) + 2)%nat
      /\ ProcessedOrders
           (snd (fst (startOrderHandler o log [ICasePtr k] is_closed)))
         = ProcessedOrders o
      /\ length (ProcessedOrders
                   (snd (fst (startOrderHandler
                                o log [ICartPtr c1; ICartPtr c2; ICasePtr k]
                                is_closed))))
         = (length (ProcessedOrders o) + 2)%nat)
  /\ (forall (st : system) (msg : iface) (rest : list iface),
      consumer st = Receiving -> queue (ch st) = msg :: rest ->
      exists st1,
        step st ERecv = Some st1
        /\ consumer st1 = Receiving
        /\ queue (ch st1) = rest
        /\ ProcessedOrders (handler st1)
           = ProcessedOrders (handler st) ++ carts_of [msg])
  /\ (forall st : system,
      consumer st = Receiving -> queue (ch st) = [] ->
      if closed (ch st)
      then exists st1,
             step st ERecv = Some st1
             /\ consumer st1 = Returned /\ handler st1 = handler st
      else step st ERecv = None).
Proof.
  assert (R : forall o log msgs c,
             ProcessedOrders (snd (fst (startOrderHandler o log msgs c)))
             = ProcessedOrders o ++ carts_of msgs).
  { intros o log msgs c.
    destruct (startOrderHandler_result o log msgs c) as [l ->]. reflexivity. }
  split; [|split; [|split; [|split; [|split; [|split; [|split]]]]]].
  - intros msgs c. split.
    + now rewrite R.
    + destruct (startOrderHandler_result (mkHandler []) [] msgs c) as [l ->].
      simpl. destruct c; split; congruence.
  - exact R.
  - reflexivity.
  - intros o log msg A. now rewrite handle_message_other.
  - intros o log before after bad c A. rewrite R, carts_of_app. f_equal.
    destruct bad; simpl in A; try discriminate; reflexivity.
  - intros o log c1 c2 k c. rewrite !R. simpl.
    rewrite app_nil_r, length_app. simpl. repeat split; lia.
  - intros st msg rest C Q. unfold step, chan_recv. rewrite C, Q.
    pose proof (ProcessedOrders_handle (handler st) (log st) msg) as P.
    destruct (handle_message (handler st) (log st) msg) as [o l].
    eexists; split; [reflexivity|]. simpl. auto.
  - intros st C Q. unfold step, chan_recv. rewrite C, Q.
    destruct (closed (ch st)); [|reflexivity].
    eexists; split; [reflexivity|]. auto.
Qed.

(** Witness of C1: a string between two carts is skipped. *)
Lemma startOrderHandler_appends_carts_witness :
  ProcessedOrders
    (snd (fst (startOrderHandler (mkHandler []) []
                 ([ICartPtr (CAddr 0)] ++ IString "beer" :: [ICartPtr (CAddr 1)])
                 true)))
  = ProcessedOrders (mkHandler [])
    ++ carts_of [ICartPtr (CAddr 0)] ++ carts_of [ICartPtr (CAddr 1)].
Proof.
  pose proof startOrderHandler_appends_carts as (_ & _ & _ & _ & skip & _).
  apply skip. reflexivity.
Defined.

(** C10. A nil pointer to a cart sent on the channel passes the type
    assertion and is appended to the processed-orders log like any other:
    a message is a valid order exactly when its dynamic type is pointer to
    cart, whatever the pointer and whatever the store holds; the nil
    interface value is not a valid order. *)
Theorem nil_cart_is_placed :
  (forall (o : OrderHandler) (log : list Entry),
      handle_message o log (ICartPtr CNil)
      = (mkHandler (ProcessedOrders o ++ [CNil]),
         log ++ [mkEntry InfoLevel "successfully placed order" logger]))
  /\ ProcessedOrders
       (snd (fst (startOrderHandler (mkHandler []) [] [ICartPtr CNil] true)))
     = [CNil]
  /\ (forall msg : iface,
      snd (assert_CartPtr msg) = true <-> exists p, msg = ICartPtr p)
  /\ (forall (o : OrderHandler) (log : list Entry) (p : cartptr),
      ProcessedOrders (fst (handle_message o log (ICartPtr p)))
      = ProcessedOrders o ++ [p])
  /\ (forall (o : OrderHandler) (log : list Entry),
      fst (handle_message o log INil) = o).
Proof.
  split; [|split; [|split; [|split]]]; try reflexivity.
  intros msg. split.
  - destruct msg; simpl; try discriminate. eauto.
  - intros [p ->]. reflexivity.
Qed.

Section SystemFacts.

(** Case analysis of a successful step. *)
Ltac step_inv H :=
  unfold step, startSubscriptionTimer in H;
  repeat match type of H with
         | context [match ?x with _ => _ end] =>
             lazymatch x with
             | context [match _ with _ => _ end] => fail
             | _ => destruct x eqn:?
             end
         end;
  try discriminate H;
  try (injection H as H; subst).

Lemma step_sent (st st' : system) (e : event) :
  step st e = Some st' ->
  sent st' = sent st
  \/ exists ticker msg,
       e = ESent /\ timer st = TSend ticker msg
       /\ sent st' = sent st ++ [msg].
Proof.
  intros H. destruct e; step_inv H; simpl; eauto 6.
Qed.

Lemma run_sent_grows (evs : list event) (st st' : system) :
  run st evs = Some st' -> exists more, sent st' = sent st ++ more.
Proof.
  revert st; induction evs as [|e evs IH]; intros st R; simpl in R.
  - injection R as <-. exists []. now rewrite app_nil_r.
  - destruct (step st e) as [st1|] eqn:S; [|discriminate].
    destruct (IH _ R) as [more E].
    destruct (step_sent _ _ _ S) as [E1 | (t & m & _ & _ & E1)];
      rewrite E, E1; [eauto|].
    exists (m :: more). now rewrite <- app_assoc.
Qed.

Lemma step_carts (st st' : system) (e : event) :
  step st e = Some st' -> is_EAddCase e = false -> carts st' = carts st.
Proof.
  intros H N. destruct e; try discriminate N; step_inv H; reflexivity.
Qed.

Lemma run_carts (evs : list event) (st st' : system) :
  run st evs = Some st' ->
  forallb (fun e => negb (is_EAddCase e)) evs = true ->
  carts st' = carts st.
Proof.
  revert st; induction evs as [|e evs IH]; intros st R F; simpl in *.
  - now injection R as <-.
  - destruct (step st e) as [st1|] eqn:S; [|discriminate].
    apply andb_prop in F as [F1 F2]. apply negb_true_iff in F1.
    rewrite (IH _ R F2). eapply step_carts; eauto.
Qed.

Lemma step_returned (st st' : system) (e : event) :
  step st e = Some st' -> is_EStart e = false -> timer st = TReturned ->
  timer st' = TReturned /\ sent st' = sent st.
Proof.
  intros H N T. destruct e; try discriminate N; step_inv H; simpl in *;
    try congruence; auto.
Qed.

Lemma run_returned (evs : list event) (st st' : system) :
  run st evs = Some st' ->
  forallb (fun e => negb (is_EStart e)) evs = true ->
  timer st = TReturned ->
  timer st' = TReturned /\ sent st' = sent st.
Proof.
  revert st; induction evs as [|e evs IH]; intros st R F T; simpl in *.
  - injection R as <-. auto.
  - destruct (step st e) as [st1|] eqn:S; [|discriminate].
    apply andb_prop in F as [F1 F2]. apply negb_true_iff in F1.
    destruct (step_returned _ _ _ S F1 T) as [T1 E1].
    destruct (IH _ R F2 T1) as [T2 E2]. split; congruence.
Qed.

Lemma step_keeps_period (d : Z) (st st' : system) (e : event) :
  step st e = Some st' -> is_EStart e = false ->
  keeps_period d (timer st) -> keeps_period d (timer st').
Proof.
  intros H N K. unfold keeps_period in *.
  destruct e; try discriminate N; step_inv H; simpl in *;
    try match goal with E : timer _ = _ |- _ => rewrite E in K end;
    simpl in *; eauto.
Qed.

Lemma run_keeps_period (d : Z) (evs : list event) (st st' : system) :
  run st evs = Some st' ->
  forallb (fun e => negb (is_EStart e)) evs = true ->
  keeps_period d (timer st) -> keeps_period d (timer st').
Proof.
  revert st; induction evs as [|e evs IH]; intros st R F K; simpl in *.
  - now injection R as <-.
  - destruct (step st e) as [st1|] eqn:S; [|discriminate].
    apply andb_prop in F as [F1 F2]. apply negb_true_iff in F1.
    eapply IH; eauto. eapply step_keeps_period; eauto.
Qed.

Lemma step_orders (st st' : system) (e : event) :
  step st e = Some st' ->
  ProcessedOrders (handler st') = ProcessedOrders (handler st)
  \/ exists c,
       ProcessedOrders (handler st') = ProcessedOrders (handler st) ++ [c].
Proof.
  intros H. destruct e; step_inv H; simpl; auto.
  match goal with
  | E : handle_message ?o ?l ?m = (?o', _) |- _ =>
      pose proof (ProcessedOrders_handle o l m) as P; rewrite E in P;
      simpl in P; destruct m; simpl in P; rewrite ?app_nil_r in P; eauto
  end.
Qed.

Lemma run_orders (evs : list event) (st st' : system) :
  run st evs = Some st' ->
  exists more,
    ProcessedOrders (handler st') = ProcessedOrders (handler st) ++ more.
Proof.
  revert st; induction evs as [|e evs IH]; intros st R; simpl in R.
  - injection R as <-. exists []. now rewrite app_nil_r.
  - destruct (step st e) as [st1|] eqn:S; [|discriminate].
    destruct (IH _ R) as [more E].
    destruct (step_orders _ _ _ S) as [E1 | [c E1]]; rewrite E, E1; [eauto|].
    exists (c :: more). now rewrite <- app_assoc.
Qed.

(** The consumer, left to run, takes every message of the channel. *)
Lemma drain (q : list iface) (st : system) :
  consumer st = Receiving -> queue (ch st) = q ->
  exists st',
    run st (repeat ERecv (length q)) = Some st'
    /\ ProcessedOrders (handler st')
       = ProcessedOrders (handler st) ++ carts_of q
    /\ queue (ch st') = []
    /\ consumer st' = Receiving
    /\ timer st' = timer st /\ sent st' = sent st.
Proof.
  revert st; induction q as [|m q IH]; intros st C Q.
  - exists st. simpl. rewrite app_nil_r. repeat split; auto.
  - cbn [length repeat run]. unfold step at 1, chan_recv. rewrite C, Q.
    pose proof (ProcessedOrders_handle (handler st) (log st) m) as P.
    destruct (handle_message (handler st) (log st) m) as [o l]. simpl in P.
    edestruct IH as (st' & R & PO & E & C' & T & S);
      [| | exists st'; split; [exact R|]]; simpl; auto.
    simpl in *. repeat split; auto.
    rewrite PO, P. destruct m; simpl; now rewrite <- ?app_assoc, ?app_nil_r.
Qed.

End SystemFacts.

(** C2. At a tick the timer loop evaluates the cart the subscription holds
    and that value is the message it sends. [SetCart] replaces the cart that
    the next tick will send and touches neither the message in flight, nor
    the messages sent, nor the channel, nor the processed orders, nor the
    store of carts; no step of the system ever alters or removes a message
    already sent, and the cart a message refers to changes only if some
    goroutine calls [AddCase] on it. *)
Theorem emitted_message_is_cart_at_tick :
  (forall (st : system) (ticker : Ticker),
      timer st = TSelect ticker ->
      exists st1,
        step st ETick = Some st1
        /\ in_flight st1 = Some (ICartPtr (cart (sub st)))
        /\ sent st1 = sent st)
  /\ (forall (st : system) (c : cartptr),
      exists st1,
        step st (ESetCart c) = Some st1
        /\ cart (sub st1) = c
        /\ in_flight st1 = in_flight st
        /\ sent st1 = sent st
        /\ ch st1 = ch st
        /\ handler st1 = handler st
        /\ carts st1 = carts st)
  /\ (forall (st : system) (ticker : Ticker) (msg : iface) (c : cartptr),
      timer st = TSend ticker msg -> closed (ch st) = false ->
      exists st1,
        run st [ESetCart c; ESent] = Some st1
        /\ sent st1 = sent st ++ [msg])
  /\ (forall (st : system) (ticker : Ticker) (c : cartptr),
      timer st = TSelect ticker -> closed (ch st) = false ->
      exists st1,
        run st [ESetCart c; ETick; ESent] = Some st1
        /\ sent st1 = sent st ++ [ICartPtr c])
  /\ (forall (st st1 : system) (evs : list event),
      run st evs = Some st1 -> exists more, sent st1 = sent st ++ more)
  /\ (forall (st st1 : system) (evs : list event) (msg : iface),
      run st evs = Some st1 ->
      forallb (fun e => negb (is_EAddCase e)) evs = true ->
      content (carts st1) msg = content (carts st) msg).
Proof.
  split; [|split; [|split; [|split; [|split]]]].
  - intros st ticker T. unfold step. rewrite T. eexists; split; eauto.
  - intros st c. eexists; split; [reflexivity|]. simpl. repeat split.
  - intros st ticker msg c T C. simpl. rewrite T, C. eexists; split; eauto.
  - intros st ticker c T C. simpl. rewrite T. simpl. rewrite C.
    eexists; split; eauto.
  - intros st st1 evs R. eapply run_sent_grows; eauto.
  - intros st st1 evs msg R F. now rewrite (run_carts _ _ _ R F).
Qed.

(** Witness of C2, the timer test of the repository: the first cart is
    sent, the cart is replaced, the second cart is sent; the first message
    stays as it was. *)
Lemma emitted_message_is_cart_at_tick_witness :
  exists st1,
    run test_system [EStart; ETick; ESent; ERecv; ESetCart (CAddr 1);
                     ETick; ESent]
    = Some st1
    /\ sent st1 = [ICartPtr (CAddr 0); ICartPtr (CAddr 1)]
    /\ content (carts st1) (ICartPtr (CAddr 0))
       = content (carts test_system) (ICartPtr (CAddr 0)).
Proof.
  eexists. split; [vm_compute; reflexivity|]. split; [reflexivity|].
  pose proof emitted_message_is_cart_at_tick as (_ & _ & _ & _ & _ & same).
  eapply (same test_system _
            [EStart; ETick; ESent; ERecv; ESetCart (CAddr 1); ETick; ESent]).
  - vm_compute. reflexivity.
  - reflexivity.
Defined.

(** The message is the pointer the subscription holds, not a copy of the
    cart: a later [AddCase] on that cart is seen through a message already
    sent. *)
Remark AddCase_reaches_sent_message :
  exists st st1,
    run test_system [EStart; ETick; ESent] = Some st
    /\ sent st = [ICartPtr (CAddr 0)]
    /\ step st (EAddCase (CAddr 0) Nil) = Some st1
    /\ sent st1 = sent st
    /\ content (carts st) (ICartPtr (CAddr 0)) = Some FixtureCart
    /\ content (carts st1) (ICartPtr (CAddr 0))
       = Some (AddCase FixtureCart Nil).
Proof.
  do 2 eexists. split; [vm_compute; reflexivity|].
  split; [reflexivity|]. split; [vm_compute; reflexivity|].
  repeat split.
Qed.

(** C7. A call of the timer loop reads the interval once, to make its
    ticker: with a positive interval [d] the loop reaches its select with a
    ticker of period [d], and whatever happens afterwards short of a new
    call, calls of [SetInterval] included, the loop has a ticker of period
    [d] until it ends. A call of [SetInterval] leaves the loop where it is
    with the ticker it has, and the steps of the loop do the same with any
    interval stored in the subscription. A call made after the loop returned
    makes its ticker from the interval stored then. *)
Theorem interval_read_at_start_only :
  forall (st : system),
    timer st = TNotStarted -> (0 < interval (sub st))%Z ->
    exists st0,
      step st EStart = Some st0
      /\ timer st0 = TSelect (mkTicker (interval (sub st)))
      /\ (forall (evs : list event) (st1 : system),
             forallb (fun e => negb (is_EStart e)) evs = true ->
             run st0 evs = Some st1 ->
             keeps_period (interval (sub st)) (timer st1))
      /\ (forall (st1 : system) (d : Z),
             exists st2,
               step st1 (ESetInterval d) = Some st2
               /\ interval (sub st2) = d
               /\ timer st2 = timer st1)
      /\ (forall (st1 : system) (d : Z) (e : event),
             is_timer_event e = true ->
             step (set_sub st1 (SetInterval (sub st1) d)) e
             = option_map (fun s => set_sub s (SetInterval (sub s) d))
                          (step st1 e))
      /\ (forall (st1 : system) (d : Z),
             timer st1 = TReturned -> (0 < d)%Z ->
             exists st2,
               run st1 [ESetInterval d; EStart] = Some st2
               /\ timer st2 = TSelect (mkTicker d)).
Proof.
  intros st T P.
  assert (N : forall d, (0 < d)%Z -> NewTicker d = Ok (mkTicker d)).
  { intros d D. unfold NewTicker. apply Z.leb_gt in D. now rewrite D. }
  unfold step, startSubscriptionTimer. rewrite T.
  unfold GetInterval. rewrite (N _ P).
  eexists; split; [reflexivity|]. simpl.
  split; [reflexivity|]. split; [|split; [|split]].
  - intros evs st1 F R.
    eapply run_keeps_period; eauto. reflexivity.
  - intros st1 d. eexists; split; [reflexivity|]. auto.
  - intros st1 d e E. destruct e; try discriminate E; simpl.
    + destruct (timer st1); simpl; auto. now destruct (cancelled st1).
    + destruct (timer st1); simpl; auto.
    + destruct (timer st1); simpl; auto. now destruct (closed (ch st1)).
  - intros st1 d T1 D. simpl. rewrite T1. unfold GetInterval; simpl.
    rewrite (N _ D). eexists; split; reflexivity.
Qed.

(** Witness of C7: started with one second, set to five seconds while it
    runs, the loop keeps its ticker of one second. *)
Lemma interval_read_at_start_only_witness :
  exists st0 st1,
    step test_system EStart = Some st0
    /\ timer st0 = TSelect (mkTicker Second)
    /\ run st0 [ETick; ESetInterval (5 * Second); ESent; ETick] = Some st1
    /\ interval (sub st1) = (5 * Second)%Z
    /\ keeps_period Second (timer st1).
Proof.
  destruct (interval_read_at_start_only test_system eq_refl)
    as (st0 & S & T & K & _).
  - vm_compute. reflexivity.
  - exists st0.
    assert (R : exists st1,
               run st0 [ETick; ESetInterval (5 * Second); ESent; ETick]
               = Some st1 /\ interval (sub st1) = (5 * Second)%Z).
    { vm_compute in S. injection S as <-. eexists. split; reflexivity. }
    destruct R as (st1 & R & I). exists st1.
    split; [exact S|]. split; [exact T|]. split; [exact R|].
    split; [exact I|].
    apply (K [ETick; ESetInterval (5 * Second); ESent; ETick] st1 eq_refl R).
Defined.

(** C8. The system starts with an empty processed-orders log. [PlaceOrder]
    appends the cart and returns a nil error. Every pass of the consumer
    loop, and every step of the whole system, leaves the log as it is or
    adds one cart at its end; so after any run the former log is a prefix of
    the new one and every entry is still at its index. *)
Theorem ProcessedOrders_append_only :
  (forall (s : Subscription) (h : store),
      ProcessedOrders (handler (init_system s h)) = [])
  /\ (forall (o : OrderHandler) (c : cartptr),
      PlaceOrder o c = (mkHandler (ProcessedOrders o ++ [c]), None))
  /\ (forall (o : OrderHandler) (l : list Entry) (msg : iface),
      ProcessedOrders (fst (handle_message o l msg)) = ProcessedOrders o
      \/ exists c,
           ProcessedOrders (fst (handle_message o l msg))
           = ProcessedOrders o ++ [c])
  /\ (forall (st st1 : system) (e : event),
      step st e = Some st1 ->
      ProcessedOrders (handler st1) = ProcessedOrders (handler st)
      \/ exists c,
           ProcessedOrders (handler st1) = ProcessedOrders (handler st) ++ [c])
  /\ (forall (st st1 : system) (evs : list event),
      run st evs = Some st1 ->
      exists more,
        ProcessedOrders (handler st1) = ProcessedOrders (handler st) ++ more)
  /\ (forall (st st1 : system) (evs : list event) (i : nat) (c : cartptr),
      run st evs = Some st1 ->
      ProcessedOrders (handler st) !! i = Some c ->
      ProcessedOrders (handler st1) !! i = Some c)
  /\ (forall (o : OrderHandler) (l : list Entry) (msgs : list iface)
             (is_closed : bool),
      exists more,
        ProcessedOrders (snd (fst (startOrderHandler o l msgs is_closed)))
        = ProcessedOrders o ++ more).
Proof.
  split; [|split; [|split; [|split; [|split; [|split]]]]].
  - reflexivity.
  - reflexivity.
  - intros o l msg. rewrite ProcessedOrders_handle.
    destruct msg; simpl; rewrite ?app_nil_r; eauto.
  - intros st st1 e S. eapply step_orders; eauto.
  - intros st st1 evs R. eapply run_orders; eauto.
  - intros st st1 evs i c R L.
    destruct (run_orders _ _ _ R) as [more ->].
    now apply lookup_app_l_Some.
  - intros o l msgs c.
    destruct (startOrderHandler_result o l msgs c) as [l' ->]. simpl. eauto.
Qed.

(** Witness of C8: a cart, a bare case and a nil cart are received; the
    first entry of the log stays the first. *)
Lemma ProcessedOrders_append_only_witness :
  exists st1,
    run (mkSystem (mkSub (CAddr 0) Second) TNotStarted false
                  (mkChan [ICartPtr (CAddr 1);
                           ICasePtr (FixtureCase 30 Nil 24%float);
                           ICartPtr CNil] false)
                  [] (mkHandler [CAddr 0]) Receiving [] test_store)
        [ERecv; ERecv; ERecv] = Some st1
    /\ ProcessedOrders (handler st1) = [CAddr 0; CAddr 1; CNil]
    /\ ProcessedOrders (handler st1) !! 0%nat = Some (CAddr 0).
Proof.
  eexists. split; [vm_compute; reflexivity|]. split; [reflexivity|].
  pose proof ProcessedOrders_append_only as (_ & _ & _ & _ & _ & keep & _).
  eapply (keep (mkSystem (mkSub (CAddr 0) Second) TNotStarted false
                  (mkChan [ICartPtr (CAddr 1);
                           ICasePtr (FixtureCase 30 Nil 24%float);
                           ICartPtr CNil] false)
                  [] (mkHandler [CAddr 0]) Receiving [] test_store)
               _ [ERecv; ERecv; ERecv] 0%nat (CAddr 0)).
  - vm_compute. reflexivity.
  - reflexivity.
Defined.

(** ** Further properties of the cart *)

(** [AddCase] keeps what the cart holds and appends: after any sequence of
    calls on a new cart the cases are the items in the order of the calls,
    an item already in the cart keeps its index, and the new item is last. *)
Theorem AddCase_keeps_order :
  (forall (c : Cart) (items : list (ptr Case)),
      Cases (add_cases c items) = Cases c ++ items)
  /\ (forall items : list (ptr Case),
      Cases (add_cases NewCart items) = items
      /\ length (Cases (add_cases NewCart items)) = length items)
  /\ (forall (c : Cart) (x y : ptr Case) (i : nat),
      Cases c !! i = Some y -> Cases (AddCase c x) !! i = Some y)
  /\ (forall (c : Cart) (x : ptr Case),
      Cases (AddCase c x) !! length (Cases c) = Some x).
Proof.
  split; [|split; [|split]].
  - apply Cases_add_cases.
  - intros items. rewrite Cases_add_cases. simpl. auto.
  - intros c x y i L. simpl. now apply lookup_app_l_Some.
  - intros c x. simpl. rewrite lookup_app_r by lia.
    now rewrite Nat.sub_diag.
Qed.

(** Witness: the first case of the fixture cart stays first. *)
Lemma AddCase_keeps_order_witness :
  Cases (AddCase FixtureCart Nil) !! 0%nat
  = Some (FixtureCase 4 (FixtureBeer "Duvel" "Tripel Hop" 11%float) 14%float).
Proof.
  pose proof AddCase_keeps_order as (_ & _ & keep & _).
  apply keep. reflexivity.
Defined.

(** The subtotal depends on the order of the cases: binary64 addition is
    not associative, and two carts holding the same cases in another order
    can have different subtotals. *)
Theorem Subtotal_depends_on_order :
  exists ks ks' : list Case,
    Permutation ks ks'
    /\ Subtotal (add_cases NewCart (map Ref ks))
       <> Subtotal (add_cases NewCart (map Ref ks')).
Proof.
  exists [mkCase 1 Nil 1e16%float; mkCase 1 Nil 1%float;
          mkCase 1 Nil (-1e16)%float],
         [mkCase 1 Nil 1e16%float; mkCase 1 Nil (-1e16)%float;
          mkCase 1 Nil 1%float].
  split.
  - apply perm_skip, perm_swap.
  - intros E.
    apply (f_equal (fun r => match r with
                             | Ok x => PrimFloat.eqb x 0%float
                             | Panic _ => false
                             end)) in E.
    vm_compute in E. discriminate.
Qed.

(** A cart filled with cases made by [FixtureCase] always has a subtotal,
    the sum of the price arguments in order, whatever the counts and the
    beers, a nil beer included: [Subtotal] never follows the beer pointer. *)
Theorem Subtotal_of_fixture_cases :
  forall args : list (Z * ptr Beer * float64),
    Subtotal
      (add_cases NewCart
         (map (fun a => FixtureCase (fst (fst a)) (snd (fst a)) (snd a)) args))
    = Ok (fold_left (fun s a => (s + snd a)%float) args 0%float).
Proof.
  intros args.
  assert (C : add_cases NewCart
                (map (fun a => FixtureCase (fst (fst a)) (snd (fst a)) (snd a))
                     args)
              = mkCart (map Ref (map (fun a => mkCase (fst (fst a))
                                                      (snd (fst a)) (snd a))
                                     args))).
  { pose proof (Cases_add_cases NewCart
                  (map (fun a => FixtureCase (fst (fst a)) (snd (fst a))
                                             (snd a)) args)) as E.
    destruct (add_cases NewCart _) as [cs]. simpl in E. subst cs.
    f_equal. rewrite map_map. reflexivity. }
  rewrite C. clear C. unfold Subtotal; simpl.
  rewrite Subtotal_loop_refs. f_equal.
  generalize 0%float.
  induction args as [|a args IH]; intros acc; simpl; [reflexivity | apply IH].
Qed.

(** ** Further properties of the payment call *)

(** [ProcessPayment] returns a nil error exactly when the server answered
    with a status code below 400 and the body was read to its end, and then
    the body returned is the whole body; it returns a non-nil body exactly
    when the server answered with a status code below 400. *)
Theorem ProcessPayment_nil_error_iff :
  forall (w : World) (url : string) (total : float64) (log : list Entry),
    (snd (fst (ProcessPayment w url total log)) = None
     <-> exists resp,
           network w url "application/json" (request_body w total)
           = Responded resp
           /\ (StatusCode resp < 400)%Z
           /\ read_err (Body resp) = None
           /\ fst (fst (ProcessPayment w url total log))
              = Some (body_data (Body resp)))
    /\ (fst (fst (ProcessPayment w url total log)) <> None
        <-> exists resp,
              network w url "application/json" (request_body w total)
              = Responded resp
              /\ (StatusCode resp < 400)%Z).
Proof.
  intros w url total log.
  unfold ProcessPayment, http_Post, request_body.
  destruct (json_Marshal (format_float w) total) as [b merr]; simpl.
  destruct (network w url "application/json" b) as [resp | why]; simpl.
  - destruct (400 <=? StatusCode resp)%Z eqn:S; simpl.
    + apply Z.leb_le in S. split; split.
      * discriminate.
      * intros (r & E & L & _). injection E as <-. lia.
      * congruence.
      * intros (r & E & L). injection E as <-. lia.
    + apply Z.leb_gt in S. split; split.
      * intros R. exists resp. auto.
      * intros (r & E & _ & R & _). now injection E as <-.
      * intros _. exists resp. auto.
      * discriminate.
  - split; split; try discriminate; try congruence.
    + intros (r & E & _). discriminate.
    + intros (r & E & _). discriminate.
Qed.

(** ** Further properties of the order handler *)

Section HandlerMore.

Lemma written_app (log1 log2 : list Entry) :
  written (log1 ++ log2) = written log1 ++ written log2.
Proof. apply List.filter_app. Qed.

Lemma at_level_app (l : Level) (log1 log2 : list Entry) :
  at_level l (log1 ++ log2) = at_level l log1 ++ at_level l log2.
Proof. apply List.filter_app. Qed.

(** The body of the loop writes one record: a success for a cart, an error
    for anything else. *)
Lemma handle_message_log (o : OrderHandler) (log : list Entry) (msg : iface) :
  exists entry,
    snd (handle_message o log msg) = log ++ [entry]
    /\ Lvl entry = (if snd (assert_CartPtr msg) then InfoLevel else ErrorLevel).
Proof.
  destruct msg; eexists; (split; [reflexivity|]); reflexivity.
Qed.

End HandlerMore.

(** The consumer loop keeps the records already written and writes exactly
    one record per message received, at the info level for each cart and at
    the error level for each other message; its return on a closed channel
    writes nothing, the call being at the debug level. *)
Theorem startOrderHandler_written_records :
  forall (o : OrderHandler) (log : list Entry) (msgs : list iface)
         (is_closed : bool),
  exists added,
    written (snd (startOrderHandler o log msgs is_closed))
    = written log ++ added
    /\ length added = length msgs
    /\ length (at_level InfoLevel added) = length (carts_of msgs)
    /\ (length (at_level InfoLevel added)
        + length (at_level ErrorLevel added))%nat = length msgs
    /\ at_level DebugLevel added = [].
Proof.
  intros o log msgs c. revert o log.
  induction msgs as [|m msgs IH]; intros o log.
  - unfold startOrderHandler; simpl. exists [].
    destruct c; simpl; rewrite ?written_app, ?app_nil_r; simpl; auto.
  - unfold startOrderHandler in *. cbn [startOrderHandler_with].
    destruct (handle_message_log o log m) as (entry & L & V).
    unfold handle_message in L.
    destruct (handle_with PlaceOrder o log m) as [o1 log1]. simpl in L.
    destruct (IH o1 log1) as (added & E & N & I & S & D).
    exists (entry :: added). subst log1.
    rewrite E, written_app, <- app_assoc.
    change (entry :: added) with ([entry] ++ added).
    rewrite !at_level_app, !length_app, D.
    destruct entry as [lvl txt data]; simpl in V; subst lvl.
    destruct m; simpl; repeat split; lia.
Qed.

(** ** Further properties of the two loops *)

Section SystemMore.

Ltac step_cases H :=
  unfold step, startSubscriptionTimer, chan_recv in H;
  repeat match type of H with
         | context [match ?x with _ => _ end] =>
             lazymatch x with
             | context [match _ with _ => _ end] => fail
             | _ => destruct x eqn:?
             end
         end;
  try discriminate H;
  try (injection H as H; subst).

Lemma init_wired (s : Subscription) (h : store) : wired (init_system s h).
Proof.
  unfold wired; simpl. repeat split; auto; discriminate.
Qed.

Lemma step_wired (st st' : system) (e : event) :
  wired st -> step st e = Some st' -> wired st'.
Proof.
  unfold wired. intros (W1 & W2 & W3 & W4 & W5 & W6) S.
  assert (W4a : consumer st = Returned -> closed (ch st) = true)
    by (intros C; now destruct (W4 C)).
  assert (W4b : consumer st = Returned -> queue (ch st) = [])
    by (intros C; now destruct (W4 C)).
  clear W4.
  destruct e; step_cases S; simpl in *;
    try (repeat split; intros; auto; try congruence; eauto; fail).
  - (* the select takes the tick *)
    repeat split; intros; auto.
    match goal with
    | E : TSend _ _ = TSend _ _ |- _ => now injection E as _ <-
    end.
  - (* the send completes on an open channel *)
    repeat split; intros; auto; try congruence.
    + now rewrite W1, app_assoc.
    + apply Forall_app. split; [exact W2|]. constructor; eauto.
    + match goal with C : consumer _ = Returned |- _ =>
        apply W4a in C; congruence end.
    + match goal with C : consumer _ = Returned |- _ =>
        apply W4a in C; congruence end.
  - (* the consumer finds the channel closed *)
    unfold at_level in *.
    match goal with Q : queue (ch st) = _ |- _ => rewrite ?Q end.
    repeat split; intros; eauto; rewrite List.filter_app.
    + now rewrite W5.
    + rewrite length_app, W6. simpl. lia.
  - (* the consumer handles a message *)
    inversion W2 as [|m q C F]; subst.
    match goal with
    | H : handle_message _ _ ?m = _ |- _ =>
        destruct m; try discriminate C;
        rewrite handle_message_cart in H; injection H as <- <-
    end.
    unfold at_level in *. simpl.
    repeat split; intros; eauto; try congruence.
    + now rewrite W1, map_app, <- app_assoc.
    + rewrite List.filter_app, W5. reflexivity.
    + rewrite List.filter_app, !length_app, W6. reflexivity.
Qed.

Lemma run_wired (evs : list event) (st st' : system) :
  wired st -> run st evs = Some st' -> wired st'.
Proof.
  revert st; induction evs as [|e evs IH]; intros st W R; simpl in R.
  - now injection R as <-.
  - destruct (step st e) as [st1|] eqn:S; [|discriminate].
    apply (IH st1); [exact (step_wired st st1 e W S) | exact R].
Qed.

Lemma step_flags (st st' : system) (e : event) :
  step st e = Some st' ->
  (cancelled st' = true -> cancelled st = true \/ e = ECancel)
  /\ (closed (ch st') = true -> closed (ch st) = true \/ e = EClose)
  /\ (timer st' = TReturned ->
      timer st = TReturned \/ cancelled st = true).
Proof.
  intros S. destruct e; step_cases S; simpl in *;
    repeat split; intros; try congruence; auto.
Qed.

Lemma run_flags (evs : list event) (st st' : system) :
  run st evs = Some st' ->
  (timer st = TReturned -> cancelled st = true) ->
  (timer st' = TReturned -> cancelled st' = true)
  /\ (cancelled st' = true -> cancelled st = true \/ In ECancel evs)
  /\ (closed (ch st') = true -> closed (ch st) = true \/ In EClose evs).
Proof.
  revert st; induction evs as [|e evs IH]; intros st R I; simpl in R.
  - injection R as <-. auto.
  - destruct (step st e) as [st1|] eqn:S; [|discriminate].
    destruct (step_flags _ _ _ S) as (F1 & F2 & F3).
    assert (I1 : timer st1 = TReturned -> cancelled st1 = true).
    { intros T. destruct (F3 T) as [T0 | C0].
      - apply I in T0. clear - S T0.
        destruct e; step_cases S; simpl in *; auto; congruence.
      - clear - S C0.
        destruct e; step_cases S; simpl in *; auto; congruence. }
    destruct (IH _ R I1) as (G1 & G2 & G3).
    split; [exact G1|]. split.
    + intros C. destruct (G2 C) as [C1 | C1]; [|right; now right].
      destruct (F1 C1) as [C0 | ->]; [now left | right; now left].
    + intros C. destruct (G3 C) as [C1 | C1]; [|right; now right].
      destruct (F2 C1) as [C0 | ->]; [now left | right; now left].
Qed.

Lemma step_sub (st st' : system) (e : event) :
  step st e = Some st' ->
  cart (sub st') = written_cart (cart (sub st)) [e]
  /\ interval (sub st') = written_interval (interval (sub st)) [e].
Proof.
  intros S. destruct e; step_cases S; simpl; auto.
Qed.

Lemma step_panicked (st st' : system) (e : event) (why : string) :
  step st e = Some st' -> timer st = TPanicked why ->
  timer st' = TPanicked why /\ sent st' = sent st.
Proof.
  intros S T. destruct e; step_cases S; simpl in *; auto; congruence.
Qed.

Lemma step_ticks (st st' : system) (e : event) :
  step st e = Some st' ->
  (length (sent st') + pending st'
   <= length (sent st) + pending st + ticks [e])%nat.
Proof.
  intros S. unfold pending, in_flight, ticks.
  destruct e; step_cases S; simpl in *;
    rewrite ?length_app; simpl;
    repeat match goal with
           | E : timer _ = _ |- _ => rewrite E
           | |- context [match timer ?s with _ => _ end] =>
               destruct (timer s)
           end; simpl; lia.
Qed.

Lemma step_in_send (st st' : system) (e : event) (ticker : Ticker)
    (msg : iface) :
  step st e = Some st' -> is_ESent e = false ->
  timer st = TSend ticker msg ->
  timer st' = TSend ticker msg /\ sent st' = sent st.
Proof.
  intros S N T. destruct e; try discriminate N;
    step_cases S; simpl in *; auto; congruence.
Qed.

End SystemMore.

Lemma carts_of_all_carts (q : list iface) :
  Forall (fun m => snd (assert_CartPtr m) = true) q ->
  map ICartPtr (carts_of q) = q.
Proof.
  induction 1 as [|m q C F IH]; simpl; auto.
  destruct m; try discriminate C. simpl. now rewrite IH.
Qed.

(** C3. When the select of the timer loop takes the cancellation, the loop
    returns at once: it sends nothing then and, whatever happens afterwards
    short of a new call, it stays returned and the history of its sends stays
    as it was. The channel is left as it is, and a running consumer receives
    every message that was in it and appends the carts among them. In any
    run of the system from its start, every message the timer loop sent
    before the cancellation is delivered: once the consumer has taken what
    is in the channel, the processed orders are exactly the messages sent,
    in the order of sending. *)
Theorem cancellation_stops_timer :
  (forall (st : system) (ticker : Ticker),
      timer st = TSelect ticker -> cancelled st = true ->
      exists st1,
        step st EDone = Some st1
        /\ timer st1 = TReturned
        /\ sent st1 = sent st
        /\ ch st1 = ch st
        /\ handler st1 = handler st
        /\ (forall (evs : list event) (st2 : system),
               forallb (fun e => negb (is_EStart e)) evs = true ->
               run st1 evs = Some st2 ->
               timer st2 = TReturned /\ sent st2 = sent st)
        /\ (consumer st = Receiving ->
            exists st3,
              run st1 (repeat ERecv (length (queue (ch st)))) = Some st3
              /\ ProcessedOrders (handler st3)
                 = ProcessedOrders (handler st) ++ carts_of (queue (ch st))
              /\ queue (ch st3) = []
              /\ timer st3 = TReturned
              /\ sent st3 = sent st))
  /\ (forall (s : Subscription) (h : store) (evs : list event) (st : system)
             (ticker : Ticker),
      run (init_system s h) evs = Some st ->
      timer st = TSelect ticker -> cancelled st = true ->
      exists st1,
        step st EDone = Some st1
        /\ timer st1 = TReturned
        /\ sent st
           = map ICartPtr (ProcessedOrders (handler st)) ++ queue (ch st)
        /\ exists st3,
             run st1 (repeat ERecv
                        (match consumer st with
                         | Receiving => length (queue (ch st))
                         | Returned => 0%nat
                         end))
             = Some st3
             /\ map ICartPtr (ProcessedOrders (handler st3)) = sent st
             /\ queue (ch st3) = []
             /\ timer st3 = TReturned
             /\ sent st3 = sent st).
Proof.
  split.
  - intros st ticker T C. unfold step, startSubscriptionTimer. rewrite T, C.
    eexists; split; [reflexivity|]. simpl. repeat split.
    + eapply run_returned; eauto.
    + edestruct run_returned as [_ E]; eauto.
    + intros R.
      destruct (drain (queue (ch st)) (set_timer st TReturned) R eq_refl)
        as (st3 & Run & PO & Q & _ & T3 & S3).
      exists st3. simpl in *. repeat split; auto.
  - intros s h evs st ticker R T C.
    destruct (run_wired _ _ _ (init_wired s h) R)
      as (W1 & W2 & _ & W4 & _).
    unfold step, startSubscriptionTimer. rewrite T, C.
    eexists; split; [reflexivity|]. simpl.
    split; [reflexivity|]. split; [exact W1|].
    destruct (consumer st) eqn:K.
    + destruct (W4 eq_refl) as [_ Q]. rewrite Q in W1.
      eexists; split; [reflexivity|]. simpl.
      rewrite W1, app_nil_r. auto.
    + destruct (drain (queue (ch st)) (set_timer st TReturned) K eq_refl)
        as (st3 & Run & PO & Q & _ & T3 & S3).
      exists st3. simpl in *. repeat split; auto.
      rewrite PO, map_app, (carts_of_all_carts _ W2). now rewrite W1.
Qed.

(** Witness of C3: two ticks and two sends, then the context is cancelled
    and the select takes the cancellation; the consumer takes both messages
    and the processed orders are the two messages sent. *)
Lemma cancellation_stops_timer_witness :
  exists st1 st3,
    step (mkSystem (mkSub (CAddr 0) Second) (TSelect (mkTicker Second)) true
                   (mkChan [ICartPtr (CAddr 0); ICartPtr (CAddr 0)] false)
                   [ICartPtr (CAddr 0); ICartPtr (CAddr 0)]
                   (mkHandler []) Receiving [] test_store)
         EDone
    = Some st1
    /\ timer st1 = TReturned
    /\ run st1 (repeat ERecv 2) = Some st3
    /\ map ICartPtr (ProcessedOrders (handler st3))
       = [ICartPtr (CAddr 0); ICartPtr (CAddr 0)].
Proof.
  assert (R : run (init_system (mkSub (CAddr 0) Second) test_store)
                  [EStart; ETick; ESent; ETick; ESent; ECancel]
              = Some (mkSystem (mkSub (CAddr 0) Second)
                               (TSelect (mkTicker Second)) true
                               (mkChan [ICartPtr (CAddr 0);
                                        ICartPtr (CAddr 0)] false)
                               [ICartPtr (CAddr 0); ICartPtr (CAddr 0)]
                               (mkHandler []) Receiving [] test_store))
    by (vm_compute; reflexivity).
  destruct (proj2 cancellation_stops_timer _ _ _ _ (mkTicker Second)
                  R eq_refl eq_refl)
    as (st1 & S & T & _ & st3 & R3 & D & _).
  exists st1, st3. split; [exact S|]. split; [exact T|].
  split; [exact R3 | exact D].
Defined.

(** The subscription is written by its setters only: after any run, the
    getters return the argument of the last call of [SetCart] and of
    [SetInterval] in the run, or what the subscription held before if there
    was none; neither loop writes it, and each setter leaves the other field
    alone. *)
Theorem subscription_written_by_setters :
  (forall (st st1 : system) (evs : list event),
      run st evs = Some st1 ->
      GetCart (sub st1) = written_cart (GetCart (sub st)) evs
      /\ GetInterval (sub st1) = written_interval (GetInterval (sub st)) evs)
  /\ (forall (s : Subscription) (c : cartptr) (d : Z),
      GetCart (SetCart s c) = c
      /\ GetInterval (SetCart s c) = GetInterval s
      /\ GetInterval (SetInterval s d) = d
      /\ GetCart (SetInterval s d) = GetCart s).
Proof.
  split; [|intros; repeat split].
  intros st st1 evs. revert st.
  induction evs as [|e evs IH]; intros st R; simpl in R.
  - injection R as <-. auto.
  - destruct (step st e) as [st0|] eqn:S; [|discriminate].
    destruct (step_sub _ _ _ S) as [C I].
    destruct (IH _ R) as [C1 I1]. unfold GetCart, GetInterval in *.
    rewrite C1, I1, C, I. auto.
Qed.

(** Witness: two carts are set while the loop runs; the second stays. *)
Lemma subscription_written_by_setters_witness :
  exists st1,
    run test_system [EStart; ESetCart CNil; ETick; ESetInterval 5;
                     ESetCart (CAddr 1); ESent]
    = Some st1
    /\ GetCart (sub st1) = CAddr 1
    /\ GetInterval (sub st1) = 5%Z.
Proof.
  eexists. split; [vm_compute; reflexivity|].
  pose proof subscription_written_by_setters as [written _].
  apply (written test_system _
           [EStart; ESetCart CNil; ETick; ESetInterval 5;
            ESetCart (CAddr 1); ESent]).
  vm_compute. reflexivity.
Defined.

(** Between the subscription and the order handler no message is lost,
    repeated or reordered: after any run of the system from its start, the
    messages the timer loop sent are exactly the processed orders, in order,
    followed by the messages still in the channel. *)
Theorem sent_is_processed_then_queued :
  forall (s : Subscription) (h : store) (evs : list event) (st1 : system),
    run (init_system s h) evs = Some st1 ->
    sent st1
    = map ICartPtr (ProcessedOrders (handler st1)) ++ queue (ch st1).
Proof.
  intros s h evs st1 R.
  destruct (run_wired _ _ _ (init_wired s h) R) as (W & _). exact W.
Qed.

(** Witness: three ticks, two messages received, one still in the channel. *)
Lemma sent_is_processed_then_queued_witness :
  exists st1,
    run test_system [EStart; ETick; ESent; ERecv; ESetCart (CAddr 1); ETick;
                     ESent; ETick; ESent; ERecv]
    = Some st1
    /\ ProcessedOrders (handler st1) = [CAddr 0; CAddr 1]
    /\ queue (ch st1) = [ICartPtr (CAddr 1)]
    /\ sent st1
       = map ICartPtr (ProcessedOrders (handler st1)) ++ queue (ch st1).
Proof.
  eexists. split; [vm_compute; reflexivity|].
  split; [reflexivity|]. split; [reflexivity|].
  apply (sent_is_processed_then_queued (mkSub (CAddr 0) Second) test_store
           [EStart; ETick; ESent; ERecv; ESetCart (CAddr 1); ETick;
            ESent; ETick; ESent; ERecv]).
  vm_compute. reflexivity.
Defined.

(** Every message the timer loop puts on the channel is a pointer to a
    cart, a nil one included, so the order handler fed by the subscription
    never logs an error: after any run from the start the log has no record
    at the error level and one success record per processed order. *)
Theorem subscription_messages_never_rejected :
  forall (s : Subscription) (h : store) (evs : list event) (st1 : system),
    run (init_system s h) evs = Some st1 ->
    Forall (fun m => exists p, m = ICartPtr p) (sent st1)
    /\ at_level ErrorLevel (log st1) = []
    /\ length (at_level InfoLevel (log st1))
       = length (ProcessedOrders (handler st1)).
Proof.
  intros s h evs st1 R.
  destruct (run_wired _ _ _ (init_wired s h) R)
    as (W1 & W2 & _ & _ & W5 & W6).
  split; [|split; assumption].
  rewrite W1. apply Forall_app. split.
  - generalize (ProcessedOrders (handler st1)). intros ps.
    induction ps as [|p ps IH]; simpl; constructor; eauto.
  - eapply Forall_impl; [exact W2|]. intros m C.
    destruct m; try discriminate C. eauto.
Qed.

(** Witness: a subscription holding a nil cart is served without error. *)
Lemma subscription_messages_never_rejected_witness :
  exists st1,
    run (init_system (mkSub CNil Second) test_store)
        [EStart; ETick; ESent; ERecv]
    = Some st1
    /\ ProcessedOrders (handler st1) = [CNil]
    /\ at_level ErrorLevel (log st1) = [].
Proof.
  eexists. split; [vm_compute; reflexivity|]. split; [reflexivity|].
  eapply (fun R => proj1 (proj2 (subscription_messages_never_rejected
                                   (mkSub CNil Second) test_store
                                   [EStart; ETick; ESent; ERecv] _ R))).
  vm_compute. reflexivity.
Defined.

(** The consumer loop returns only after the channel was closed and only
    once the channel is empty: when it has returned, every message that was
    sent is in the processed orders, in the order of sending. *)
Theorem consumer_returns_after_draining :
  forall (s : Subscription) (h : store) (evs : list event) (st1 : system),
    run (init_system s h) evs = Some st1 ->
    consumer st1 = Returned ->
    In EClose evs
    /\ closed (ch st1) = true
    /\ queue (ch st1) = []
    /\ sent st1 = map ICartPtr (ProcessedOrders (handler st1)).
Proof.
  intros s h evs st1 R C.
  destruct (run_wired _ _ _ (init_wired s h) R) as (W1 & _ & _ & W4 & _).
  destruct (W4 C) as [Cl Q].
  destruct (run_flags _ _ _ R) as (_ & _ & F); [discriminate|].
  destruct (F Cl) as [F0 | F0]; [discriminate F0|].
  rewrite Q, app_nil_r in W1. auto.
Qed.

(** Witness: two messages are queued, the channel is closed, the consumer
    takes both and then returns. *)
Lemma consumer_returns_after_draining_witness :
  exists st1,
    run test_system [EStart; ETick; ESent; ETick; ESent; EClose;
                     ERecv; ERecv; ERecv]
    = Some st1
    /\ consumer st1 = Returned
    /\ sent st1 = map ICartPtr (ProcessedOrders (handler st1)).
Proof.
  eexists. split; [vm_compute; reflexivity|]. split; [reflexivity|].
  eapply (fun R C => proj2 (proj2 (proj2 (consumer_returns_after_draining
                                             (mkSub (CAddr 0) Second)
                                             test_store
                                             [EStart; ETick; ESent; ETick;
                                              ESent; EClose; ERecv; ERecv;
                                              ERecv] _ R C)))).
  - vm_compute. reflexivity.
  - reflexivity.
Defined.

(** The timer loop returns only through the cancellation of its context:
    after a run from the start in which the loop has returned, the context
    is cancelled and the run holds the cancellation. With a context that is
    never cancelled the loop never returns. *)
Theorem timer_returns_only_when_cancelled :
  forall (s : Subscription) (h : store) (evs : list event) (st1 : system),
    run (init_system s h) evs = Some st1 ->
    timer st1 = TReturned ->
    cancelled st1 = true /\ In ECancel evs.
Proof.
  intros s h evs st1 R T.
  destruct (run_flags _ _ _ R) as (F1 & F2 & _); [discriminate|].
  split; [auto|].
  destruct (F2 (F1 T)) as [F0 | F0]; [discriminate F0 | exact F0].
Qed.

(** Witness: started, cancelled, returned. *)
Lemma timer_returns_only_when_cancelled_witness :
  exists st1,
    run test_system [EStart; ETick; ECancel; ESent; EDone] = Some st1
    /\ timer st1 = TReturned
    /\ cancelled st1 = true
    /\ In ECancel [EStart; ETick; ECancel; ESent; EDone].
Proof.
  eexists. split; [vm_compute; reflexivity|]. split; [reflexivity|].
  apply (timer_returns_only_when_cancelled (mkSub (CAddr 0) Second)
           test_store [EStart; ETick; ECancel; ESent; EDone]);
    reflexivity.
Defined.

(** Started with an interval that is zero or negative, the timer loop
    panics in [time.NewTicker] before its first select, and nothing is ever
    sent: whatever happens afterwards, the loop stays panicked and the
    history of its sends is as it was. *)
Theorem nonpositive_interval_panics :
  forall (st : system),
    timer st = TNotStarted -> (interval (sub st) <= 0)%Z ->
    exists st0,
      step st EStart = Some st0
      /\ timer st0 = TPanicked "non-positive interval for NewTicker"
      /\ forall (evs : list event) (st1 : system),
           run st0 evs = Some st1 ->
           timer st1 = TPanicked "non-positive interval for NewTicker"
           /\ sent st1 = sent st.
Proof.
  intros st T I. unfold step, startSubscriptionTimer. rewrite T.
  unfold NewTicker, GetInterval. apply Z.leb_le in I. rewrite I.
  eexists; split; [reflexivity|]. split; [reflexivity|].
  intros evs.
  assert (G : forall st0 st1,
             run st0 evs = Some st1 ->
             timer st0 = TPanicked "non-positive interval for NewTicker" ->
             timer st1 = TPanicked "non-positive interval for NewTicker"
             /\ sent st1 = sent st0).
  { induction evs as [|e evs IH]; intros st0 st1 R P; simpl in R.
    - injection R as <-. auto.
    - destruct (step st0 e) as [st2|] eqn:S; [|discriminate].
      destruct (step_panicked _ _ _ _ S P) as [P2 E2].
      destruct (IH _ _ R P2) as [P1 E1]. split; congruence. }
  intros st1 R. apply (G _ _ R). reflexivity.
Qed.

(** Witness: the zero value of a subscription has interval 0. *)
Lemma nonpositive_interval_panics_witness :
  exists st0,
    step (init_system (mkSub CNil 0) test_store) EStart = Some st0
    /\ timer st0 = TPanicked "non-positive interval for NewTicker".
Proof.
  destruct (nonpositive_interval_panics
              (init_system (mkSub CNil 0) test_store) eq_refl)
    as (st0 & S & T & _).
  - simpl. lia.
  - exists st0. split; [exact S | exact T].
Defined.

(** The timer loop sends at most one message per tick: over any run, the
    messages sent, counting one for a send in progress, grow by no more
    than the number of ticks the select took. *)
Theorem one_message_per_tick :
  forall (st st1 : system) (evs : list event),
    run st evs = Some st1 ->
    (length (sent st1) + pending st1
     <= length (sent st) + pending st + ticks evs)%nat.
Proof.
  intros st st1 evs. revert st.
  induction evs as [|e evs IH]; intros st R; simpl in R.
  - injection R as <-. unfold ticks; simpl. lia.
  - destruct (step st e) as [st0|] eqn:S; [|discriminate].
    pose proof (step_ticks _ _ _ S) as T. pose proof (IH _ R) as T1.
    unfold ticks in *. simpl in *.
    destruct (is_ETick e); simpl in *; lia.
Qed.

(** Witness: two ticks, one message sent and one on its way. *)
Lemma one_message_per_tick_witness :
  exists st1,
    run test_system [EStart; ETick; ESent; ETick] = Some st1
    /\ (length (sent st1) + pending st1
        <= length (sent test_system) + pending test_system
           + ticks [EStart; ETick; ESent; ETick])%nat.
Proof.
  eexists. split; [vm_compute; reflexivity|].
  apply (one_message_per_tick test_system _ [EStart; ETick; ESent; ETick]).
  vm_compute. reflexivity.
Defined.

(** While the timer loop waits in a send it takes neither a tick nor the
    cancellation: as long as the send does not complete, whatever else
    happens, the loop stays in that send with the same message and sends
    nothing. A cancelled loop whose message nobody receives never returns. *)
Theorem pending_send_ignores_cancellation :
  forall (st : system) (ticker : Ticker) (msg : iface),
    timer st = TSend ticker msg ->
    step st EDone = None
    /\ step st ETick = None
    /\ forall (evs : list event) (st1 : system),
         forallb (fun e => negb (is_ESent e)) evs = true ->
         run st evs = Some st1 ->
         timer st1 = TSend ticker msg /\ sent st1 = sent st.
Proof.
  intros st ticker msg T.
  split; [|split].
  - unfold step, startSubscriptionTimer. now rewrite T.
  - unfold step, startSubscriptionTimer. now rewrite T.
  - intros evs. revert st T.
    induction evs as [|e evs IH]; intros st T st1 F R; simpl in *.
    + injection R as <-. auto.
    + destruct (step st e) as [st0|] eqn:S; [|discriminate].
      apply andb_prop in F as [F1 F2]. apply negb_true_iff in F1.
      destruct (step_in_send _ _ _ _ _ S F1 T) as [T0 E0].
      destruct (IH _ T0 _ F2 R) as [T1 E1]. split; congruence.
Qed.

(** Witness: a send is pending, the context is cancelled, the cart is
    replaced; the loop is still sending the first cart. *)
Lemma pending_send_ignores_cancellation_witness :
  exists st st1,
    run test_system [EStart; ETick] = Some st
    /\ run st [ECancel; ESetCart (CAddr 1)] = Some st1
    /\ step st1 EDone = None
    /\ timer st1 = TSend (mkTicker Second) (ICartPtr (CAddr 0)).
Proof.
  eexists. eexists. split; [vm_compute; reflexivity|].
  split; [vm_compute; reflexivity|].
  split; [vm_compute; reflexivity|].
  match goal with
  | |- timer ?s1 = _ =>
      destruct (pending_send_ignores_cancellation
                  (mkSystem (mkSub (CAddr 0) Second)
                            (TSend (mkTicker Second) (ICartPtr (CAddr 0)))
                            false (mkChan [] false) [] (mkHandler [])
                            Receiving [] test_store)
                  (mkTicker Second) (ICartPtr (CAddr 0)) eq_refl)
        as (_ & _ & stay)
  end.
  apply (stay [ECancel; ESetCart (CAddr 1)] _ eq_refl). vm_compute. reflexivity.
Defined.
